(** * Functional common information (dit.multivariate.functional_common_information)

    A shallow embedding of [add_partition], [functional_markov_chain] and
    [functional_common_information], and the properties of the partition
    search that the specification states about them.

    Python's [frozenset] is a [gset]; the order in which Python iterates a
    frozenset is the order of [elements].  A [dict] is a [gmap].  Floats are
    an abstract type: the measures [entropy] and [dual_total_correlation], the
    comparison [close] and [normalize_rvs] live in other modules of dit and are
    the fields of the class [Primitives]. *)

From stdpp Require Import gmap sets list strings sorting.
From Stdlib Require Import QArith.QArith_base.

#[local] Close Scope Q_scope.

Set Default Proof Using "Type".
#[local] Set Warnings "-clear-no-such-hyp".

(** ** Data model *)

(** A symbol of an outcome, interned as a number; the label [(i,)] that
    [add_partition] appends is the one-symbol outcome [[i]]. *)
Abbreviation symbol := nat (only parsing).

(** An outcome is the tuple of the symbols of the random variables. *)
Abbreviation outcome := (list symbol) (only parsing).

(** A block is a frozenset of outcomes, a partition a frozenset of blocks. *)
Abbreviation block := (gset outcome).
Abbreviation partition := (gset block).

(** How [rvs] and [crvs] name random variables. *)
Inductive rv := RvIndex (i : nat) | RvName (s : string).
Inductive RV_MODES := Indices | Names.

(** What a call produces: a value, a raised exception, or no answer within
    the fuel given to the loop. *)
Inductive result (A : Type) := Return (a : A) | Raise | OutOfFuel.
Arguments Return {A} a.
Arguments Raise {A}.
Arguments OutOfFuel {A}.

(** dit's Distribution, as far as this module looks at it: the outcomes and,
    aligned with them, the probability masses (floats). *)
Record Distribution (float : Type) := {
  outcomes : list outcome;
  pmf : list float;
}.
Arguments outcomes {float} _.
Arguments pmf {float} _.

(** The collaborators of the module (imports of lines 8 to 14) that compute
    with floats.  [None] as [rvs], [crvs] or [rv_mode] is Python's None. *)
Class Primitives := {
  float : Type;
  (** the float 0 *)
  zero : float;
  (** [x <= y] and [x < y] on floats *)
  leb : float → float → bool;
  ltb : float → float → bool;
  (** dit.math.close(x, y) *)
  close : float → float → bool;
  (** dit.helpers.normalize_rvs(dist, rvs, crvs, rv_mode), on the inputs it
      accepts *)
  normalize_rvs : Distribution float → option (list (list rv)) →
    option (list rv) → option RV_MODES →
    list (list rv) * list rv * option RV_MODES;
  (** dit.multivariate.entropy(dist, rvs, rv_mode=rv_mode) *)
  entropy : Distribution float → list rv → option RV_MODES → float;
  (** dit.multivariate.dual_total_correlation(dist, rvs, crvs, rv_mode) *)
  dual_total_correlation : Distribution float → list (list rv) → list rv →
    option RV_MODES → float;
}.

(** ** The partition-function adapter *)

Section add_partition.
Context {float : Type}.

(** dist.outcome_length() *)
Definition outcome_length (dist : Distribution float) : nat :=
  match outcomes dist with
  | [] => 0
  | o :: _ => length o
  end.

(** Modelled from the spec: dit.distconst.modify_outcomes is not among the
    sources; "produce a new distribution with outcomes remapped through a
    pure function". *)
Definition modify_outcomes (dist : Distribution float)
    (ctor : outcome → outcome) : Distribution float :=
  {| outcomes := ctor <$> outcomes dist; pmf := pmf dist |}.

(** [tuple(x)] on an outcome that is a sequence of symbols. *)
Definition tuple (x : outcome) : outcome := x.

(** Modelled from the spec: dit.distconst.insert_rvf is not among the
    sources; "produce a new distribution with an extra derived variable
    computed from existing ones", here at the end of each outcome.  [func]
    is partial: [None] is an exception raised by the call of [func]. *)
Definition insert_rvf (dist : Distribution float)
    (func : outcome → option outcome) : option (Distribution float) :=
  new_outcomes ← mapM (λ old, (old ++.) <$> func old) (outcomes dist);
  Some {| outcomes := new_outcomes; pmf := pmf dist |}.

(** [{e: (i,) for i, es in enumerate(part) for e in es}]: the entries are
    written in iteration order, a later one replaces an earlier one. *)
Definition invert_part (part : list (list outcome)) : gmap outcome outcome :=
  foldl (λ m ies, foldl (λ m e, <[e := [ies.1]]> m) m ies.2) ∅
        (imap pair part).

(** [add_partition] (lines 18 to 37); [invert_part[j]] raises KeyError when
    [j] is not a key. *)
Definition add_partition (dist : Distribution float)
    (part : list (list outcome)) : option (Distribution float) :=
  insert_rvf dist (λ j, invert_part part !! j).
End add_partition.

(** The blocks of a frozenset partition and their outcomes, in iteration
    order: what [enumerate(part)] and [for e in es] go through. *)
Definition blocks_of (part : partition) : list (list outcome) :=
  elements <$> elements part.

(** ** The partition search *)

(** [itertools.combinations(l, 2)] *)
Fixpoint combinations2 {A} (l : list A) : list (A * A) :=
  match l with
  | [] => []
  | x :: l' => (pair x <$> l') ++ combinations2 l'
  end.

(** [frozenset([p for p in part if p not in pair] + [pair[0] | pair[1]])] *)
Definition merge_pair (part : partition) (pair : block * block) : partition :=
  list_to_set
    (filter (λ p, p ≠ pair.1 ∧ p ≠ pair.2) (elements part)
     ++ [pair.1 ∪ pair.2]).

(** Python's [<] on lists of integers (lexicographic). *)
Fixpoint list_lt (a b : list nat) : bool :=
  match a, b with
  | _, [] => false
  | [], _ :: _ => true
  | x :: a', y :: b' =>
      if x <? y then true else if y <? x then false else list_lt a' b'
  end.

(** [sorted(l)] on integers *)
Definition sorted_nat (l : list nat) : list nat := merge_sort (≤) l.

(** The sort key [lambda p: sorted(map(len, p))] *)
Definition size_key (p : partition) : list nat :=
  sorted_nat (size <$> elements p).

(** [sorted(l, key=key)]: ascending and stable, an element goes behind the
    ones already placed whose key is not greater. *)
Fixpoint insert_by {A} (key : A → list nat) (x : A) (l : list A) : list A :=
  match l with
  | [] => [x]
  | y :: l' =>
      if list_lt (key x) (key y) then x :: y :: l'
      else y :: insert_by key x l'
  end.

Definition sorted_by {A} (key : A → list nat) (l : list A) : list A :=
  foldl (λ acc x, insert_by key x acc) [] l.

(** [deque.extendleft(new)]: the elements are pushed on the left one after
    the other, so they end up in reverse order. *)
Definition extendleft {A} (queue new : list A) : list A :=
  foldl (λ q x, x :: q) queue new.

(** The loop leaves through [while queue] or through [break]. *)
Inductive exit := QueueEmpty | EarlyExit.

Section search.
Context {prim : Primitives}.

(** The variables of the loop.  [popped] is not in the source: it records,
    in order, the partitions taken from the queue and given to
    [add_partition]. *)
Record state := {
  queue : list partition;
  checked : gset partition;
  optimal : float * Distribution float;
  popped : list partition;
}.

Inductive step := Stop (e : exit) (s : state) | Next (s : state) | Raises.

Section loop.
(** What the loop reads and does not change. *)
Variable dist : Distribution float.
Variable H : Distribution float → float.
Variable B : Distribution float → float.
Variable optimal_b : float.

(** [new_parts] of lines 151 to 154, [checked] being the set after
    [checked.add(part)]. *)
Definition new_parts (checked : gset partition) (part : partition)
    : list partition :=
  let new_parts := merge_pair part <$> combinations2 (elements part) in
  sorted_by size_key (filter (λ p, p ∉ checked) new_parts).

(** One turn of [while queue] (lines 134 to 155). *)
Definition loop_body (s : state) : step :=
  match queue s with
  | [] => Stop QueueEmpty s
  | part :: rest =>
      let checked := {[part]} ∪ checked s in
      match add_partition dist (blocks_of part) with
      | None => Raises
      | Some d =>
          let popped := popped s ++ [part] in
          if close (B d) zero then
            let h := H d in
            let optimal :=
              if leb h (optimal s).1 then (h, d) else optimal s in
            if close h optimal_b then
              Stop EarlyExit {| queue := rest; checked := checked;
                                optimal := optimal; popped := popped |}
            else
              Next {| queue := extendleft rest (new_parts checked part);
                      checked := checked; optimal := optimal;
                      popped := popped |}
          else
            Next {| queue := rest; checked := checked;
                    optimal := optimal s; popped := popped |}
      end
  end.

Fixpoint while_queue (fuel : nat) (s : state) : result (exit * state) :=
  match fuel with
  | 0 => OutOfFuel
  | S fuel =>
      match loop_body s with
      | Stop e s' => Return (e, s')
      | Next s' => while_queue fuel s'
      | Raises => Raise
      end
  end.
End loop.

(** The finest partition, [frozenset([frozenset([o]) for o in dist.outcomes])] *)
Definition finest (dist : Distribution float) : partition :=
  list_to_set ((λ o, {[o]} : block) <$> outcomes dist).

(** The state in which [functional_markov_chain] enters its loop, and the
    final state and exit of the loop (lines 114 to 155). *)
Definition search (fuel : nat) (dist : Distribution float)
    (rvs : option (list (list rv))) (crvs : option (list rv))
    (rv_mode : option RV_MODES) : result (exit * state) :=
  let '(rvs, crvs, rv_mode) := normalize_rvs dist rvs crvs rv_mode in
  let dist := modify_outcomes dist tuple in
  let part := finest dist in
  let W := [RvIndex (outcome_length dist)] in
  let H d := entropy d W rv_mode in
  let B d := dual_total_correlation d rvs (crvs ++ W) rv_mode in
  let optimal_b := dual_total_correlation dist rvs crvs rv_mode in
  match add_partition dist (blocks_of part) with
  | None => Raise
  | Some initial =>
      while_queue dist H B optimal_b fuel
        {| queue := [part]; checked := ∅;
           optimal := (H initial, initial); popped := [] |}
  end.

(** [functional_markov_chain] (lines 77 to 157) *)
Definition functional_markov_chain (fuel : nat) (dist : Distribution float)
    (rvs : option (list (list rv))) (crvs : option (list rv))
    (rv_mode : option RV_MODES) : result (Distribution float) :=
  match search fuel dist rvs crvs rv_mode with
  | Return (_, s) => Return (optimal s).2
  | Raise => Raise
  | OutOfFuel => OutOfFuel
  end.

(** Modelled from the spec: dit.utils.partitions is not among the sources;
    "generic partition-enumeration utilities": every partition of the
    outcomes, once.  [add_to_each o p] puts [o] into each block of [p] in
    turn. *)
Fixpoint add_to_each (o : outcome) (p : list (list outcome))
    : list (list (list outcome)) :=
  match p with
  | [] => []
  | b :: p' => ((o :: b) :: p') :: (cons b <$> add_to_each o p')
  end.

Fixpoint partitions (outcomes : list outcome) : list (list (list outcome)) :=
  match outcomes with
  | [] => [[]]
  | o :: os => partitions os ≫= λ p, ([o] :: p) :: add_to_each o p
  end.

(** [min(l, key=key)]: the first element whose key no other one is less
    than; ValueError on the empty list. *)
Definition min_by {A} (key : A → float) (l : list A) : result A :=
  match l with
  | [] => Raise
  | x :: l' =>
      Return (foldl (λ best y, if ltb (key y) (key best) then y else best)
                    x l')
  end.

(** [functional_markov_chain_naive] (lines 39 to 75); [len(dist.rvs)] is the
    number of random variables, the length of the outcomes. *)
Definition functional_markov_chain_naive (dist : Distribution float)
    (rvs : option (list (list rv))) (crvs : option (list rv))
    (rv_mode : option RV_MODES) : result (Distribution float) :=
  let '(rvs, crvs, rv_mode) := normalize_rvs dist rvs crvs rv_mode in
  let outcomes := outcomes dist in
  let f := [RvIndex (outcome_length dist)] in
  let parts := partitions outcomes in
  match mapM (add_partition dist) parts with
  | None => Raise
  | Some dists =>
      let B d := dual_total_correlation d rvs (crvs ++ f) rv_mode in
      let dists := filter (λ d, close (B d) zero = true) dists in
      min_by (λ d, entropy d f rv_mode) dists
  end.

(** [functional_common_information] (lines 159 to 192) *)
Definition functional_common_information (fuel : nat)
    (dist : Distribution float) (rvs : option (list (list rv)))
    (crvs : option (list rv)) (rv_mode : option RV_MODES) : result float :=
  match functional_markov_chain fuel dist rvs crvs rv_mode with
  | Return d => Return (entropy d [RvIndex (outcome_length dist)] None)
  | Raise => Raise
  | OutOfFuel => OutOfFuel
  end.
End search.

(** ** Shannon's measures in exact arithmetic

    Modelled from the spec: dit.multivariate.entropy,
    dit.multivariate.dual_total_correlation, dit.helpers.normalize_rvs and
    dit.math.close are not among the sources.  "entropy: Shannon entropy of
    the joint of the given variables"; "dual_total_correlation: a multivariate
    generalization of mutual information, conditioned on a variable set;
    returns 0 exactly at conditional independence in the ideal case";
    "close: fixed-tolerance floating-point equality"; "normalize_rvs: default
    rvs to all declared variables if unset, default crvs to empty".

    The masses of a distribution are rationals, all multiples of 1/N.  A
    quantity of x bits is held as the rational 2^(N x), so that sums of
    quantities are products, [<=] is [<=], and [close] is equality: the
    arithmetic is exact and the tolerance is zero. *)
Module exact.
Inductive xfloat :=
  | Mass (p : Q)      (* a probability *)
  | Bits (q : Q).     (* x bits, q = 2^(N x) *)

Definition mass_of (x : xfloat) : Q :=
  match x with Mass p => p | Bits _ => 0 end.

Definition bits_of (x : xfloat) : Q :=
  match x with Bits q => q | Mass _ => 1 end.

(** N, the least common denominator of the masses *)
Definition denominator (dist : Distribution xfloat) : Z :=
  foldr (λ x n, Z.lcm (Zpos (Qden (mass_of x))) n) 1%Z (pmf dist).

(** the mass of an outcome, in multiples of 1/N *)
Definition count (N : Z) (x : xfloat) : Z :=
  (Qnum (mass_of x) * (N / Zpos (Qden (mass_of x))))%Z.

Definition index_of (v : rv) : list nat :=
  match v with RvIndex i => [i] | RvName _ => [] end.

(** the symbols of an outcome at the given variables *)
Definition project (rvs : list rv) (o : outcome) : outcome :=
  (λ i, default 0 (o !! i)) <$> (rvs ≫= index_of).

(** the mass, in multiples of 1/N, of the atom of [o] in the marginal
    distribution on the given variables: the outcomes that agree with [o] on
    them *)
Definition atom_count (dist : Distribution xfloat) (rvs : list rv)
    (o : outcome) : Z :=
  let N := denominator dist in
  foldr (λ ox acc, if decide (project rvs ox.1 = project rvs o)
                   then (count N ox.2 + acc)%Z else acc)
        0%Z (zip (outcomes dist) (pmf dist)).

(** H(rvs) = - sum_o p(o) log2 p_rvs(o), so
    2^(N H(rvs)) = N^N / prod_o atom_count(o)^count(o). *)
Definition H_joint (dist : Distribution xfloat) (rvs : list rv) : Q :=
  let N := denominator dist in
  (inject_Z (N ^ N)
   / inject_Z (foldr (λ ox acc, atom_count dist rvs ox.1 ^ count N ox.2 * acc)
                     1 (zip (outcomes dist) (pmf dist)))%Z)%Q.

(** conditional entropy H(rvs | crvs) = H(rvs, crvs) - H(crvs) *)
Definition H_cond (dist : Distribution xfloat) (rvs crvs : list rv) : Q :=
  (H_joint dist (rvs ++ crvs) / H_joint dist crvs)%Q.

Definition rv_eqb (a b : rv) : bool :=
  match a, b with
  | RvIndex i, RvIndex j => bool_decide (i = j)
  | RvName s, RvName t => bool_decide (s = t)
  | _, _ => false
  end.

(** the variables of all groups but those of the group [g] *)
Definition others (g : list rv) (rvs : list (list rv)) : list rv :=
  filter (λ v, ¬ existsb (rv_eqb v) g) (concat rvs).

(** B(rvs | crvs) = H(all | crvs) - sum_g H(g | others(g), crvs) *)
Definition dtc (dist : Distribution xfloat) (rvs : list (list rv))
    (crvs : list rv) : Q :=
  (H_cond dist (concat rvs) crvs
   / foldr (λ g acc, H_cond dist g (others g rvs ++ crvs) * acc) 1 rvs)%Q.

Definition normalize (dist : Distribution xfloat)
    (rvs : option (list (list rv))) (crvs : option (list rv))
    (rv_mode : option RV_MODES) : list (list rv) * list rv * option RV_MODES :=
  (default ((λ i, [RvIndex i]) <$> seq 0 (outcome_length dist)) rvs,
   default [] crvs, rv_mode).

#[global] Instance primitives : Primitives := {|
  float := xfloat;
  zero := Bits 1;
  leb x y := Qle_bool (bits_of x) (bits_of y);
  ltb x y := negb (Qle_bool (bits_of y) (bits_of x));
  close x y := Qeq_bool (bits_of x) (bits_of y);
  normalize_rvs := normalize;
  entropy dist rvs _ := Bits (H_joint dist rvs);
  dual_total_correlation dist rvs crvs _ := Bits (dtc dist rvs crvs);
|}.

(** A well-formed distribution: no mass is negative, and the outcomes have
    the same length. *)
Definition well_formed (dist : Distribution xfloat) : Prop :=
  Forall (λ x, (0 ≤ Qnum (mass_of x))%Z) (pmf dist)
  ∧ Forall (λ o, length o = outcome_length dist) (outcomes dist).

(** The distributions of the scenarios: two copies of a fair bit; two
    independent fair bits; three equally likely outcomes 00, 01, 11. *)
Definition copy_bits : Distribution xfloat :=
  {| outcomes := [[0; 0]; [1; 1]]; pmf := [Mass (1 # 2); Mass (1 # 2)] |}.

Definition independent_bits : Distribution xfloat :=
  {| outcomes := [[0; 0]; [0; 1]; [1; 0]; [1; 1]];
     pmf := [Mass (1 # 4); Mass (1 # 4); Mass (1 # 4); Mass (1 # 4)] |}.

Definition three_outcomes : Distribution xfloat :=
  {| outcomes := [[0; 0]; [0; 1]; [1; 1]];
     pmf := [Mass (1 # 3); Mass (1 # 3); Mass (1 # 3)] |}.

(** One outcome that is certain. *)
Definition certain : Distribution xfloat :=
  {| outcomes := [[0; 0]]; pmf := [Mass 1] |}.
End exact.

(** ** Predicates of the statements *)

(** The outcome [o] is in the block of [part] at position [i]. *)
Definition in_block (part : list (list outcome)) (i : nat) (o : outcome)
    : Prop :=
  ∃ es, part !! i = Some es ∧ o ∈ es.

(** [part] covers the outcomes [os] exactly once: each of them is in one
    block and in no other. *)
Definition covers_once (os : list outcome) (part : list (list outcome))
    : Prop :=
  ∀ o, o ∈ os → ∃ i, in_block part i o ∧ ∀ j, in_block part j o → j = i.

(** The label [add_partition] gives an outcome: the number in its entry of
    [invert_part]. *)
Definition label (part : list (list outcome)) (o : outcome) : nat :=
  default 0 (invert_part part !! o ≫= head).

(** A partition in the sense of the data model: no block is empty and two
    different blocks share no outcome. *)
Definition disjoint_blocks (p : partition) : Prop :=
  (∅ ∉ p) ∧ ∀ b1 b2, b1 ∈ p → b2 ∈ p → b1 ≠ b2 → b1 ## b2.

(** Every outcome of [os] is in a block of [p]. *)
Definition covers (os : list outcome) (p : partition) : Prop :=
  ∀ o, o ∈ os → ∃ b, b ∈ p ∧ o ∈ b.

(** [x] is not behind [y] in ascending order of the sort key. *)
Definition key_le {A} (key : A → list nat) (x y : A) : Prop :=
  list_lt (key y) (key x) = false.

(** The number of pairs that [combinations2] makes of [n] elements. *)
Fixpoint choose2 (n : nat) : nat :=
  match n with
  | 0 => 0
  | S n' => n' + choose2 n'
  end.

(** A bound on the turns of the loop that a queued partition of [n] blocks
    accounts for: its own turn and the turns of its successors. *)
Fixpoint turns (n : nat) : nat :=
  match n with
  | 0 => 1
  | S n' => 1 + choose2 (S n') * turns n'
  end.

Definition queue_turns (queue : list partition) : nat :=
  sum_list_with (λ p, turns (size p)) queue.

(** Fuel that is enough for the loop of [functional_markov_chain]. *)
Definition search_fuel {float} (dist : Distribution float) : nat :=
  S (turns (length (outcomes dist))).

(** The best candidate after the partition [part] has been looked at, [opt]
    being the best before (lines 139 to 146). *)
Definition better {prim : Primitives} (dist : Distribution float)
    (H B : Distribution float → float) (opt : float * Distribution float)
    (part : partition) : float * Distribution float :=
  match add_partition dist (blocks_of part) with
  | Some d =>
      if close (B d) zero then if leb (H d) opt.1 then (H d, d) else opt
      else opt
  | None => opt
  end.

(** [H], [B] and [optimal_b] of lines 122 to 125 in a call of
    [functional_markov_chain], and the state in which the loop is entered,
    [initial] being what [add_partition] made of the finest partition. *)
Definition search_H {prim : Primitives} (dist : Distribution float)
    (rvs : option (list (list rv))) (crvs : option (list rv))
    (rv_mode : option RV_MODES) (d : Distribution float) : float :=
  entropy d [RvIndex (outcome_length dist)]
    (normalize_rvs dist rvs crvs rv_mode).2.

Definition search_B {prim : Primitives} (dist : Distribution float)
    (rvs : option (list (list rv))) (crvs : option (list rv))
    (rv_mode : option RV_MODES) (d : Distribution float) : float :=
  dual_total_correlation d (normalize_rvs dist rvs crvs rv_mode).1.1
    ((normalize_rvs dist rvs crvs rv_mode).1.2
     ++ [RvIndex (outcome_length dist)])
    (normalize_rvs dist rvs crvs rv_mode).2.

Definition search_optimal_b {prim : Primitives} (dist : Distribution float)
    (rvs : option (list (list rv))) (crvs : option (list rv))
    (rv_mode : option RV_MODES) : float :=
  dual_total_correlation dist (normalize_rvs dist rvs crvs rv_mode).1.1
    (normalize_rvs dist rvs crvs rv_mode).1.2
    (normalize_rvs dist rvs crvs rv_mode).2.

Definition search_entry {prim : Primitives} (dist : Distribution float)
    (rvs : option (list (list rv))) (crvs : option (list rv))
    (rv_mode : option RV_MODES) (initial : Distribution float) : state :=
  {| queue := [finest dist]; checked := ∅;
     optimal := (search_H dist rvs crvs rv_mode initial, initial);
     popped := [] |}.

(** The variables of the loop after [n] turns from the state [s], as long as
    the loop goes on. *)
Fixpoint after_turns {prim : Primitives} (dist : Distribution float)
    (H B : Distribution float → float) (optimal_b : float) (n : nat)
    (s : state) : state :=
  match n with
  | 0 => s
  | S n =>
      match loop_body dist H B optimal_b s with
      | Next s' => after_turns dist H B optimal_b n s'
      | _ => s
      end
  end.

(** The search on a distribution of the exact model, called with rvs, crvs
    and rv_mode None: the state in which the loop is entered and the state
    after [n] turns. *)
Definition exact_H (dist : Distribution exact.xfloat)
    : Distribution exact.xfloat → exact.xfloat :=
  search_H dist None None None.

Definition exact_B (dist : Distribution exact.xfloat)
    : Distribution exact.xfloat → exact.xfloat :=
  search_B dist None None None.

Definition exact_optimal_b (dist : Distribution exact.xfloat) : exact.xfloat :=
  search_optimal_b dist None None None.

Definition exact_entry (dist : Distribution exact.xfloat) : state :=
  search_entry dist None None None
    (default dist (add_partition dist (blocks_of (finest dist)))).

Definition exact_loop_body (dist : Distribution exact.xfloat) (s : state)
    : step :=
  loop_body dist (exact_H dist) (exact_B dist) (exact_optimal_b dist) s.

Definition exact_turn (n : nat) (dist : Distribution exact.xfloat) : state :=
  after_turns dist (exact_H dist) (exact_B dist) (exact_optimal_b dist)
    n (exact_entry dist).

(** Of a run: how it left the loop, and the sort keys of the partitions it
    took from the queue and of those it left there. *)
Definition size_trace {prim : Primitives} (r : result (exit * state))
    : option (exit * list (list nat) * list (list nat)) :=
  match r with
  | Return (e, s) => Some (e, size_key <$> popped s, size_key <$> queue s)
  | _ => None
  end.

(** What holds of the variables of the loop each time [while queue] is
    tested: the queue holds partitions, none of them twice and none of them
    visited, the ones with fewer blocks in front; the visited set is the set
    of the partitions taken from the queue, each taken once. *)
Record search_invariant {prim : Primitives} (s : state) : Prop := {
  inv_blocks : Forall disjoint_blocks (queue s);
  inv_queue_nodup : NoDup (queue s);
  inv_queue_fresh : ∀ p, p ∈ queue s → p ∉ checked s;
  inv_queue_sorted : StronglySorted (λ p q, size p ≤ size q) (queue s);
  inv_popped_nodup : NoDup (popped s);
  inv_popped_checked : ∀ p, p ∈ popped s ↔ p ∈ checked s;
}.

(** [p] is a partition of the outcomes [os]: its blocks are not empty, share
    no outcome, hold every outcome of [os] and nothing else. *)
Definition partition_of (os : list outcome) (p : partition) : Prop :=
  disjoint_blocks p ∧ covers os p ∧ ∀ b o, b ∈ p → o ∈ b → o ∈ os.

(** [p] passes the test of line 141. *)
Definition feasible {prim : Primitives} (dist : Distribution float)
    (B : Distribution float → float) (p : partition) : Prop :=
  ∃ d, add_partition dist (blocks_of p) = Some d ∧ close (B d) zero = true.

(** [q] is [p] with two of its blocks merged (lines 151 to 153). *)
Definition successor (p q : partition) : Prop :=
  ∃ a b, a ∈ p ∧ b ∈ p ∧ a ≠ b ∧ q = merge_pair p (a, b).

(** The partitions that merges lead to from the finest one, each merge made
    in a partition that passes the test. *)
Inductive reachable {prim : Primitives} (dist : Distribution float)
    (B : Distribution float → float) : partition → Prop :=
  | reachable_finest : reachable dist B (finest dist)
  | reachable_merge p q :
      reachable dist B p → feasible dist B p → successor p q →
      reachable dist B q.

(** Where the partitions of a state come from, [p0] being the partition the
    loop was entered with: each one in the queue is a successor of a
    partition that was taken from the queue and passed the test, and so is
    each one taken from the queue, of a partition taken before it. *)
Definition provenance {prim : Primitives} (dist : Distribution float)
    (B : Distribution float → float) (p0 : partition) (s : state) : Prop :=
  (∀ q, q ∈ queue s →
        q = p0 ∨ ∃ p, p ∈ popped s ∧ feasible dist B p ∧ successor p q)
  ∧ ∀ j q, popped s !! j = Some q →
           q = p0 ∨ ∃ i p, i < j ∧ popped s !! i = Some p
                           ∧ feasible dist B p ∧ successor p q.

(** Every successor of a partition that was taken from the queue and passed
    the test has been taken from the queue or waits in it. *)
Definition expanded {prim : Primitives} (dist : Distribution float)
    (B : Distribution float → float) (s : state) : Prop :=
  ∀ p q, p ∈ popped s → feasible dist B p → successor p q →
         q ∈ popped s ∨ q ∈ queue s.

(** [<=] on floats compares any two and is transitive (no NaN). *)
Definition total_preorder {A} (le : A → A → bool) : Prop :=
  (∀ x y, le x y = true ∨ le y x = true)
  ∧ ∀ x y z, le x y = true → le y z = true → le x z = true.

(** [<] on floats is irreflexive and transitive, and what is less than [z]
    is less than [y] or [y] is less than [z] (no NaN). *)
Definition strict_order {A} (lt : A → A → bool) : Prop :=
  (∀ x, lt x x = false)
  ∧ (∀ x y z, lt x y = true → lt y z = true → lt x z = true)
  ∧ ∀ x y z, lt x z = true → lt x y = true ∨ lt y z = true.

(** * Properties *)

(** ** Lists: pairs, the sort and the deque *)

Lemma extendleft_rev {A} (queue new : list A) :
  extendleft queue new = reverse new ++ queue.
Proof.
  unfold extendleft. revert queue.
  induction new as [|x new IH]; intros queue; simpl; [done|].
  by rewrite IH, reverse_cons, <-app_assoc.
Qed.

Lemma list_lt_irrefl a : list_lt a a = false.
Proof.
  induction a as [|x a IH]; simpl; [done|].
  by rewrite (proj2 (Nat.ltb_ge x x)) by lia.
Qed.

Lemma list_lt_trans a b c :
  list_lt a b = true → list_lt b c = true → list_lt a c = true.
Proof.
  revert b c. induction a as [|x a IH]; intros [|y b] [|z c]; simpl; try done.
  destruct (Nat.ltb_spec x y), (Nat.ltb_spec y x), (Nat.ltb_spec y z),
    (Nat.ltb_spec z y), (Nat.ltb_spec x z), (Nat.ltb_spec z x);
    try done; try lia.
  apply IH.
Qed.

Lemma list_lt_total a b :
  list_lt a b = false → list_lt b a = false → a = b.
Proof.
  revert b. induction a as [|x a IH]; intros [|y b]; simpl; try done.
  destruct (Nat.ltb_spec x y), (Nat.ltb_spec y x); try done; try lia.
  intros ??. f_equal; [lia|auto].
Qed.

Lemma list_lt_asym a b : list_lt a b = true → list_lt b a = false.
Proof.
  intros Hab. destruct (list_lt b a) eqn:Hba; [|done].
  pose proof (list_lt_trans _ _ _ Hab Hba) as Haa.
  by rewrite list_lt_irrefl in Haa.
Qed.

Lemma key_le_trans {A} (key : A → list nat) x y z :
  key_le key x y → key_le key y z → key_le key x z.
Proof.
  unfold key_le. intros Hxy Hyz.
  destruct (list_lt (key z) (key x)) eqn:Hzx; [|done].
  destruct (list_lt (key x) (key y)) eqn:Hxy'.
  - by rewrite (list_lt_trans _ _ _ Hzx Hxy') in Hyz.
  - by rewrite <-(list_lt_total _ _ Hxy' Hxy), Hzx in Hyz.
Qed.

Lemma insert_by_Permutation {A} (key : A → list nat) x l :
  insert_by key x l ≡ₚ x :: l.
Proof.
  induction l as [|y l IH]; simpl; [done|].
  destruct (list_lt _ _); [done|]. by rewrite IH, Permutation_swap.
Qed.

Lemma sorted_by_Permutation {A} (key : A → list nat) (l : list A) :
  sorted_by key l ≡ₚ l.
Proof.
  unfold sorted_by. rewrite <-(app_nil_l l) at 2.
  generalize (@nil A) as acc. induction l as [|x l IH]; intros acc; simpl.
  - by rewrite app_nil_r.
  - rewrite IH, insert_by_Permutation. apply Permutation_middle.
Qed.

Lemma insert_by_sorted {A} (key : A → list nat) x l :
  StronglySorted (key_le key) l → StronglySorted (key_le key) (insert_by key x l).
Proof.
  induction 1 as [|y l Hl IH Hy]; simpl.
  - by repeat constructor.
  - destruct (list_lt (key x) (key y)) eqn:Hxy.
    + constructor; [by constructor|]. constructor.
      * by apply list_lt_asym.
      * eapply Forall_impl; [exact Hy|]. intros z Hyz.
        eapply key_le_trans; [|exact Hyz]. by apply list_lt_asym.
    + constructor; [done|].
      rewrite insert_by_Permutation. by constructor.
Qed.

Lemma sorted_by_sorted {A} (key : A → list nat) (l : list A) :
  StronglySorted (key_le key) (sorted_by key l).
Proof.
  unfold sorted_by.
  assert (StronglySorted (key_le key) (@nil A)) as Hacc by constructor.
  revert Hacc. generalize (@nil A) as acc.
  induction l as [|x l IH]; intros acc Hacc; simpl; [done|].
  by apply IH, insert_by_sorted.
Qed.

Lemma combinations2_length {A} (l : list A) :
  length (combinations2 l) = choose2 (length l).
Proof.
  induction l as [|x l IH]; simpl; [done|].
  by rewrite length_app, length_fmap, IH.
Qed.

Lemma combinations2_elem_of {A} (l : list A) a b :
  (a, b) ∈ combinations2 l → NoDup l → a ∈ l ∧ b ∈ l ∧ a ≠ b.
Proof.
  induction l as [|x l IH]; simpl; [by intros ?%elem_of_nil|].
  intros [Hin|Hin]%elem_of_app [Hx Hl]%NoDup_cons.
  - apply list_elem_of_fmap in Hin as (y & [= -> ->] & Hy).
    repeat split; [by left|by right|]. by intros ->.
  - destruct (IH Hin Hl) as (? & ? & ?). repeat split; [by right..|done].
Qed.


(** ** add_partition *)

Section add_partition_facts.
Context {float : Type}.
Implicit Types (dist : Distribution float) (part : list (list outcome)).
Implicit Types (o e : outcome) (m : gmap outcome outcome).

Lemma fill_block_lookup (v : outcome) (es : list outcome) m e :
  foldl (λ m e, <[e := v]> m) m es !! e
  = if decide (e ∈ es) then Some v else m !! e.
Proof.
  revert m. induction es as [|e' es IH]; intros m; simpl.
  - done.
  - rewrite IH. destruct (decide (e ∈ es)) as [Hin|Hnin].
    + rewrite decide_True; [done|]. apply elem_of_cons. by right.
    + destruct (decide (e = e')) as [->|Hne].
      * rewrite lookup_insert_eq. rewrite decide_True; [done|].
        apply elem_of_cons. by left.
      * rewrite lookup_insert_ne by done.
        rewrite decide_False; [done|].
        by intros [?| ?]%elem_of_cons.
Qed.

Lemma invert_part_snoc part (es : list outcome) e :
  invert_part (part ++ [es]) !! e
  = if decide (e ∈ es) then Some [length part] else invert_part part !! e.
Proof.
  unfold invert_part. rewrite imap_app, foldl_app. simpl.
  rewrite fill_block_lookup. by rewrite Nat.add_0_r.
Qed.

Lemma invert_part_None part e :
  invert_part part !! e = None ↔ ∀ i, ¬ in_block part i e.
Proof.
  induction part as [|es part IH] using rev_ind.
  - split; [|done]. intros _ i (es & Hes & _). by rewrite lookup_nil in Hes.
  - rewrite invert_part_snoc. case_decide as Hin; split.
    + done.
    + intros Hno. destruct (Hno (length part)). exists es.
      by rewrite list_lookup_middle.
    + intros Hnone i (es' & Hes' & He).
      apply lookup_snoc_Some in Hes' as [[? Hes']|[_ ->]]; [|done].
      apply (proj1 IH Hnone i). by exists es'.
    + intros Hno. apply IH. intros i (es' & Hes' & He).
      apply (Hno i). exists es'. split; [|done].
      by apply lookup_app_l_Some.
Qed.

Lemma invert_part_Some part e v :
  invert_part part !! e = Some v →
  ∃ i, v = [i] ∧ in_block part i e ∧ ∀ j, in_block part j e → j ≤ i.
Proof.
  revert v. induction part as [|es part IH] using rev_ind; intros v.
  - intros Hv. by destruct (lookup_empty_Some (M := gmap outcome) e v).
  - rewrite invert_part_snoc. case_decide as Hin.
    + intros [= <-]. exists (length part). split; [done|]. split.
      * exists es. by rewrite list_lookup_middle.
      * intros j (es' & Hes' & _). apply lookup_lt_Some in Hes'.
        rewrite length_app in Hes'. simpl in Hes'. lia.
    + intros (i & -> & (es' & Hes' & He) & Hmax)%IH.
      exists i. split; [done|]. split.
      * exists es'. split; [|done]. by apply lookup_app_l_Some.
      * intros j (es'' & Hes'' & He'').
        apply lookup_snoc_Some in Hes'' as [[? Hes'']|[_ ->]]; [|done].
        apply Hmax. by exists es''.
Qed.

Lemma add_partition_Some dist part :
  (∀ o, o ∈ outcomes dist → ∃ i, in_block part i o) →
  add_partition dist part
  = Some {| outcomes := (λ o, o ++ [label part o]) <$> outcomes dist;
            pmf := pmf dist |}.
Proof.
  intros Hcov. unfold add_partition, insert_rvf.
  apply bind_Some. eexists. split; [|done].
  apply mapM_Some. apply Forall2_fmap_r, Forall_Forall2_diag, Forall_forall.
  intros o Ho. unfold label, compose. cbv beta.
  destruct (invert_part part !! o) as [v|] eqn:Hv.
  - apply invert_part_Some in Hv as (i & -> & _). done.
  - exfalso. destruct (Hcov o Ho) as [i Hi].
    by eapply invert_part_None in Hv.
Qed.

Lemma add_partition_None dist part :
  add_partition dist part = None ↔
  ∃ o, o ∈ outcomes dist ∧ ∀ i, ¬ in_block part i o.
Proof.
  split.
  - intros Hnone.
    destruct (decide (Forall (λ o, is_Some (invert_part part !! o))
                             (outcomes dist))) as [Hall|Hex].
    + rewrite add_partition_Some in Hnone; [done|].
      intros o Ho. rewrite Forall_forall in Hall.
      destruct (Hall o Ho) as [v Hv].
      apply invert_part_Some in Hv as (i & _ & Hi & _). eauto.
    + apply not_Forall_Exists in Hex; [|apply _].
      apply Exists_exists in Hex as (o & Ho & Hno). exists o. split; [done|].
      apply invert_part_None. by apply eq_None_not_Some.
  - intros (o & Ho & Hno). apply invert_part_None in Hno.
    unfold add_partition, insert_rvf.
    destruct (mapM _ _) as [k|] eqn:Hk; [|done].
    apply mapM_Some in Hk.
    apply list_elem_of_lookup in Ho as [n Hn].
    destruct (Forall2_lookup_l _ _ _ _ _ Hk Hn) as (y & _ & Hy).
    by rewrite Hno in Hy.
Qed.

Lemma label_greatest part o i :
  in_block part i o → in_block part (label part o) o ∧ i ≤ label part o.
Proof.
  intros Hi. unfold label.
  destruct (invert_part part !! o) as [v|] eqn:Hv.
  - apply invert_part_Some in Hv as (k & -> & Hk & Hmax). simpl. auto.
  - by eapply invert_part_None in Hv.
Qed.
End add_partition_facts.

(** C8. For a partition that covers the outcomes of the distribution exactly
    once, [add_partition] returns the distribution with the same masses and
    with each outcome extended by one trailing symbol, its label; the label
    is the position of the outcome's block, so two outcomes of the same block
    get the same label and outcomes of different blocks get different
    labels. *)
Theorem add_partition_labels_blocks {float} (dist : Distribution float)
    (part : list (list outcome)) :
  covers_once (outcomes dist) part →
  add_partition dist part
  = Some {| outcomes := (λ o, o ++ [label part o]) <$> outcomes dist;
            pmf := pmf dist |}
  ∧ ∀ o1 o2 i1 i2,
      o1 ∈ outcomes dist → o2 ∈ outcomes dist →
      in_block part i1 o1 → in_block part i2 o2 →
      label part o1 = i1 ∧ (label part o1 = label part o2 ↔ i1 = i2).
Proof.
  intros Hcov. split.
  - apply add_partition_Some. intros o Ho.
    destruct (Hcov o Ho) as (i & Hi & _). eauto.
  - assert (∀ o i, o ∈ outcomes dist → in_block part i o → label part o = i)
      as Hlab.
    { intros o i Ho Hi. destruct (Hcov o Ho) as (k & Hk & Huniq).
      destruct (label_greatest part o i Hi) as [Hl _].
      by rewrite (Huniq _ Hl), (Huniq _ Hi). }
    intros o1 o2 i1 i2 Ho1 Ho2 Hi1 Hi2.
    rewrite (Hlab o1 i1), (Hlab o2 i2); done.
Qed.

Lemma add_partition_labels_blocks_witness :
  add_partition exact.independent_bits [[[0; 0]; [0; 1]]; [[1; 0]; [1; 1]]]
  = Some {| outcomes := [[0; 0; 0]; [0; 1; 0]; [1; 0; 1]; [1; 1; 1]];
            pmf := pmf exact.independent_bits |}.
Proof.
  refine (proj1 (add_partition_labels_blocks exact.independent_bits
                   [[[0; 0]; [0; 1]]; [[1; 0]; [1; 1]]] _)).
  intros o Ho.
  assert (o = [0; 0] ∨ o = [0; 1] ∨ o = [1; 0] ∨ o = [1; 1])
    as [-> | [-> | [-> | ->]]] by (simpl in Ho; set_solver);
    [exists 0|exists 0|exists 1|exists 1];
    (split; [eexists; split; [reflexivity|set_solver]|]);
    intros [|[|j]] (es & Hes & Hin); simplify_eq/=; set_solver.
Defined.

(** C7, as stated, fails: the outcome [1] is in both blocks of the partition,
    and the call returns a distribution, with [1] labelled 1. *)
Lemma add_partition_accepts_overlap :
  ¬ covers_once [[0]; [1]] [[[0]; [1]]; [[1]]]
  ∧ add_partition
      {| outcomes := [[0]; [1]];
         pmf := [exact.Mass (1 # 2); exact.Mass (1 # 2)] |}
      [[[0]; [1]]; [[1]]]
    = Some {| outcomes := [[0; 0]; [1; 1]];
              pmf := [exact.Mass (1 # 2); exact.Mass (1 # 2)] |}.
Proof.
  split; [|reflexivity].
  intros Hcov. destruct (Hcov [1]) as (i & _ & Huniq); [set_solver|].
  assert (0 = i) as <-.
  { apply Huniq. eexists. split; [reflexivity|set_solver]. }
  assert (1 = 0); [|done].
  apply Huniq. eexists. split; [reflexivity|set_solver].
Qed.

(** C7, amended.  [add_partition] fails exactly when an outcome of the
    distribution is in no block (the lookup of [invert_part] raises).  In
    every other case it returns a distribution: each outcome is extended by
    the position of the last block that contains it, also when it is in
    several blocks. *)
Theorem add_partition_rejects_uncovered {float} (dist : Distribution float)
    (part : list (list outcome)) :
  (add_partition dist part = None ↔
   ∃ o, o ∈ outcomes dist ∧ ∀ i, ¬ in_block part i o)
  ∧ ((∀ o, o ∈ outcomes dist → ∃ i, in_block part i o) →
     add_partition dist part
     = Some {| outcomes := (λ o, o ++ [label part o]) <$> outcomes dist;
               pmf := pmf dist |}
     ∧ ∀ o i, o ∈ outcomes dist → in_block part i o →
         in_block part (label part o) o ∧ i ≤ label part o).
Proof.
  split; [apply add_partition_None|].
  intros Hcov. split; [by apply add_partition_Some|].
  intros o i _. apply label_greatest.
Qed.

(** ** Merging two blocks *)

(** Set-level facts, the blocks being elements of any type. *)
Section merge_elements.
Context `{Countable A}.
Implicit Types (X : gset A) (a b c d u v x : A).

Lemma size_list_to_set_le (l : list A) :
  size (list_to_set l : gset A) ≤ length l.
Proof.
  induction l as [|x l IH].
  { rewrite list_to_set_nil, size_empty. done. }
  rewrite list_to_set_cons, size_union_alt, size_singleton. simpl.
  assert (size (list_to_set l ∖ {[x]} : gset A) ≤ size (list_to_set l : gset A))
    by (apply subseteq_size; set_solver).
  lia.
Qed.

Lemma merge_list_eq X a b u :
  list_to_set (filter (λ p, p ≠ a ∧ p ≠ b) (elements X) ++ [u])
  = X ∖ {[a; b]} ∪ {[u]}.
Proof.
  rewrite list_to_set_app_L. simpl.
  f_equal; [|set_solver]. apply set_eq. intros x.
  rewrite elem_of_list_to_set, list_elem_of_filter, elem_of_elements.
  set_solver.
Qed.

Lemma pair_size X a b : a ∈ X → b ∈ X → a ≠ b → 2 ≤ size X.
Proof.
  intros Ha Hb Hab.
  assert (size ({[a; b]} : gset A) = 2) as <-.
  { rewrite size_union, !size_singleton; [done|set_solver]. }
  apply subseteq_size. set_solver.
Qed.

Lemma merge_size_lt X a b u :
  a ∈ X → b ∈ X → a ≠ b → size (X ∖ {[a; b]} ∪ {[u]}) < size X.
Proof.
  intros Ha Hb Hab. rewrite size_union_alt.
  assert (size ({[u]} ∖ (X ∖ {[a; b]})) ≤ 1).
  { rewrite <-(size_singleton (C := gset A) u).
    apply subseteq_size. set_solver. }
  assert (size ({[a; b]} : gset A) = 2).
  { rewrite size_union, !size_singleton; [done|set_solver]. }
  pose proof (pair_size X a b Ha Hb Hab).
  rewrite size_difference by set_solver. lia.
Qed.

Lemma merge_size X a b u :
  a ∈ X → b ∈ X → a ≠ b → u ∉ X →
  S (size (X ∖ {[a; b]} ∪ {[u]})) = size X.
Proof.
  intros Ha Hb Hab Hu.
  assert (size ({[a; b]} : gset A) = 2).
  { rewrite size_union, !size_singleton; [done|set_solver]. }
  pose proof (pair_size X a b Ha Hb Hab).
  rewrite size_union, size_singleton by set_solver.
  rewrite size_difference by set_solver. lia.
Qed.

Lemma merge_inj X a b c d u v :
  a ∈ X → b ∈ X → c ∈ X → d ∈ X → a ≠ b → c ≠ d → u ∉ X → v ∉ X →
  X ∖ {[a; b]} ∪ {[u]} = X ∖ {[c; d]} ∪ {[v]} →
  (a = c ∧ b = d) ∨ (a = d ∧ b = c).
Proof.
  intros Ha Hb Hc Hd Hab Hcd Hu Hv Heq.
  assert (a = c ∨ a = d) as Hacd.
  { destruct (decide (a = c)) as [|Hac]; [by left|].
    destruct (decide (a = d)) as [|Had]; [by right|]. exfalso.
    assert (a ∈ X ∖ {[a; b]} ∪ {[u]}) as Hin by (rewrite Heq; set_solver).
    set_solver. }
  assert (b = c ∨ b = d) as Hbcd.
  { destruct (decide (b = c)) as [|Hbc]; [by left|].
    destruct (decide (b = d)) as [|Hbd]; [by right|]. exfalso.
    assert (b ∈ X ∖ {[a; b]} ∪ {[u]}) as Hin by (rewrite Heq; set_solver).
    set_solver. }
  naive_solver.
Qed.
End merge_elements.

Lemma merge_pair_eq (part : partition) (a b : block) :
  merge_pair part (a, b) = part ∖ {[a; b]} ∪ {[a ∪ b]}.
Proof. apply merge_list_eq. Qed.

Lemma merge_pair_size_lt (part : partition) (a b : block) :
  a ∈ part → b ∈ part → a ≠ b → size (merge_pair part (a, b)) < size part.
Proof. rewrite merge_pair_eq. apply merge_size_lt. Qed.

Lemma union_fresh (part : partition) (a b : block) :
  disjoint_blocks part → a ∈ part → b ∈ part → a ≠ b → a ∪ b ∉ part.
Proof.
  intros [Hne Hdisj] Ha Hb Hab Hin.
  destruct (decide (a ∪ b = a)) as [Heq|Hneq].
  - specialize (Hdisj a b Ha Hb Hab).
    assert (b = ∅) as -> by (clear Hab; set_solver). done.
  - specialize (Hdisj (a ∪ b) a Hin Ha Hneq).
    assert (a = ∅) as -> by (clear Hab Hneq; set_solver). done.
Qed.

Lemma merge_pair_size (part : partition) (a b : block) :
  disjoint_blocks part → a ∈ part → b ∈ part → a ≠ b →
  S (size (merge_pair part (a, b))) = size part.
Proof.
  intros Hpart Ha Hb Hab. rewrite merge_pair_eq.
  apply merge_size; [done..|]. by apply union_fresh.
Qed.

Lemma merge_pair_disjoint_blocks (part : partition) (a b : block) :
  disjoint_blocks part → a ∈ part → b ∈ part → a ≠ b →
  disjoint_blocks (merge_pair part (a, b)).
Proof.
  intros [Hne Hdisj] Ha Hb Hab. rewrite merge_pair_eq. split.
  - intros [[Hin _]%elem_of_difference|Hin%elem_of_singleton]%elem_of_union;
      [done|].
    apply Hne. assert (a = ∅) as <-; [|done]. clear Hab. set_solver.
  - intros b1 b2 [[H1 N1]%elem_of_difference|Hb1%elem_of_singleton]%elem_of_union
      [[H2 N2]%elem_of_difference|Hb2%elem_of_singleton]%elem_of_union Hneq.
    + by apply Hdisj.
    + subst b2. apply not_elem_of_union in N1 as [Na%not_elem_of_singleton
                                                   Nb%not_elem_of_singleton].
      apply disjoint_union_r. split; by apply Hdisj.
    + subst b1. apply not_elem_of_union in N2 as [Na%not_elem_of_singleton
                                                   Nb%not_elem_of_singleton].
      apply disjoint_union_l. split; apply Hdisj; done.
    + by subst.
Qed.

Lemma merge_pair_covers (os : list outcome) (part : partition) (a b : block) :
  covers os part → covers os (merge_pair part (a, b)).
Proof.
  intros Hcov o Ho. destruct (Hcov o Ho) as (c & Hc & Hoc).
  rewrite merge_pair_eq.
  destruct (decide (c = a)) as [->|Hca].
  { exists (a ∪ b). split; [|by apply elem_of_union_l].
    apply elem_of_union_r. by apply elem_of_singleton. }
  destruct (decide (c = b)) as [->|Hcb].
  { exists (a ∪ b). split; [|by apply elem_of_union_r].
    apply elem_of_union_r. by apply elem_of_singleton. }
  exists c. split; [|done]. apply elem_of_union_l, elem_of_difference.
  split; [done|]. intros [?%elem_of_singleton|?%elem_of_singleton]%elem_of_union;
    done.
Qed.

Lemma merge_pair_inj (part : partition) (a b c d : block) :
  disjoint_blocks part → a ∈ part → b ∈ part → c ∈ part → d ∈ part →
  a ≠ b → c ≠ d →
  merge_pair part (a, b) = merge_pair part (c, d) →
  (a = c ∧ b = d) ∨ (a = d ∧ b = c).
Proof.
  intros Hpart Ha Hb Hc Hd Hab Hcd. rewrite !merge_pair_eq.
  apply merge_inj; try done; by apply union_fresh.
Qed.

Lemma successors_NoDup (part : partition) :
  disjoint_blocks part →
  NoDup (merge_pair part <$> combinations2 (elements part)).
Proof.
  intros Hpart.
  assert (NoDup (elements part)) as Hnd by apply NoDup_elements.
  assert (∀ x, x ∈ elements part → x ∈ part) as Hsub
    by (intros x; apply elem_of_elements).
  revert Hnd Hsub. generalize (elements part) as l.
  induction l as [|x l IH]; intros Hnd Hsub; simpl; [constructor|].
  apply NoDup_cons in Hnd as [Hx Hl].
  assert (x ∈ part) as Hxp by (apply Hsub; by left).
  assert (∀ y, y ∈ l → y ∈ part) as Hsub' by (intros y Hy; apply Hsub; by right).
  rewrite fmap_app. apply NoDup_app. split; [|split].
  - rewrite <-list_fmap_compose. apply NoDup_fmap_2_strong; [|done].
    intros y z Hy Hz Heq. simpl in Heq.
    apply merge_pair_inj in Heq as [[_ ?]|[-> ->]]; auto.
    + by intros ->.
    + by intros ->.
  - intros p (ab & -> & Hab)%list_elem_of_fmap (cd & Heq & Hcd)%list_elem_of_fmap.
    apply list_elem_of_fmap in Hab as (y & -> & Hy).
    destruct cd as [c d].
    apply combinations2_elem_of in Hcd as (Hc & Hd & Hcd); [|done].
    apply merge_pair_inj in Heq as [[-> _]|[-> _]]; auto.
    by intros ->.
  - by apply IH.
Qed.


(** ** The loop *)

Lemma choose2_mono n m : n ≤ m → choose2 n ≤ choose2 m.
Proof. induction 1; simpl; lia. Qed.

Lemma turns_pos n : 0 < turns n.
Proof. destruct n; simpl; lia. Qed.

Lemma turns_mono n m : n ≤ m → turns n ≤ turns m.
Proof.
  induction 1 as [|m Hle IH]; [done|].
  etrans; [exact IH|]. simpl.
  pose proof (turns_pos m). destruct m; simpl in *; nia.
Qed.

Lemma blocks_of_covers (os : list outcome) (part : partition) :
  covers os part → ∀ o, o ∈ os → ∃ i, in_block (blocks_of part) i o.
Proof.
  intros Hcov o Ho. destruct (Hcov o Ho) as (b & Hb & Hob).
  apply elem_of_elements, list_elem_of_lookup in Hb as [i Hi].
  exists i, (elements b). split; [|by apply elem_of_elements].
  unfold blocks_of. by rewrite list_lookup_fmap, Hi.
Qed.

Lemma new_parts_Permutation (checked : gset partition) (part : partition) :
  new_parts checked part
  ≡ₚ filter (λ p, p ∉ checked) (merge_pair part <$> combinations2 (elements part)).
Proof. apply sorted_by_Permutation. Qed.

Lemma new_parts_elem_of (checked : gset partition) (part p : partition) :
  p ∈ new_parts checked part →
  (p ∉ checked)
  ∧ ∃ a b, a ∈ part ∧ b ∈ part ∧ a ≠ b ∧ p = merge_pair part (a, b).
Proof.
  rewrite new_parts_Permutation.
  intros [Hp ([a b] & -> & Hab)%list_elem_of_fmap]%list_elem_of_filter.
  split; [done|]. exists a, b.
  apply combinations2_elem_of in Hab as (Ha & Hb & Hab);
    [|apply NoDup_elements].
  by rewrite !elem_of_elements in Ha, Hb.
Qed.

Lemma new_parts_length (checked : gset partition) (part : partition) :
  length (new_parts checked part) ≤ choose2 (size part).
Proof.
  rewrite new_parts_Permutation. etrans; [apply length_filter|].
  by rewrite length_fmap, combinations2_length.
Qed.

Lemma new_parts_NoDup (checked : gset partition) (part : partition) :
  disjoint_blocks part → NoDup (new_parts checked part).
Proof.
  intros Hpart. rewrite new_parts_Permutation.
  by apply NoDup_filter, successors_NoDup.
Qed.

Lemma queue_turns_app (q1 q2 : list partition) :
  queue_turns (q1 ++ q2) = queue_turns q1 + queue_turns q2.
Proof. apply sum_list_with_app. Qed.

Lemma queue_turns_bound (q : list partition) (n : nat) :
  (∀ p, p ∈ q → size p ≤ n) → queue_turns q ≤ length q * turns n.
Proof.
  unfold queue_turns. induction q as [|p q IH]; intros Hq; simpl; [lia|].
  pose proof (turns_mono (size p) n (Hq p ltac:(by left))).
  assert (∀ p, p ∈ q → size p ≤ n) as Hq' by (intros ??; apply Hq; by right).
  specialize (IH Hq'). lia.
Qed.

Lemma queue_turns_successors (checked : gset partition) (part : partition)
    (rest : list partition) :
  queue_turns (extendleft rest (new_parts checked part))
  < queue_turns (part :: rest).
Proof.
  rewrite extendleft_rev, queue_turns_app.
  change (queue_turns (part :: rest))
    with (turns (size part) + queue_turns rest).
  apply Nat.add_lt_mono_r.
  destruct (size part) as [|n] eqn:Hsize.
  - pose proof (new_parts_length checked part) as Hlen.
    rewrite Hsize in Hlen. simpl in Hlen.
    destruct (new_parts checked part); simpl in *; [lia|lia].
  - assert (queue_turns (reverse (new_parts checked part))
            ≤ length (reverse (new_parts checked part)) * turns n) as Hle.
    { apply queue_turns_bound. intros p Hp. rewrite elem_of_reverse in Hp.
      apply new_parts_elem_of in Hp as (_ & a & b & Ha & Hb & Hab & ->).
      pose proof (merge_pair_size_lt part a b Ha Hb Hab). lia. }
    rewrite length_reverse in Hle.
    pose proof (new_parts_length checked part) as Hlen. rewrite Hsize in Hlen.
    change (turns (S n)) with (1 + choose2 (S n) * turns n).
    pose proof (turns_pos n). nia.
Qed.


(** The invariant of the search when a partition leaves the queue, and when
    its successors enter it. *)
Lemma invariant_pop {prim : Primitives} (s : state) (part : partition) (rest : list partition)
    (opt : float * Distribution float) :
  search_invariant s → queue s = part :: rest →
  search_invariant {| queue := rest; checked := {[part]} ∪ checked s;
                      optimal := opt; popped := popped s ++ [part] |}.
Proof.
  intros [Hblocks Hnd Hfresh Hsorted Hpnd Hpc] Hq.
  rewrite Hq in Hblocks, Hnd, Hfresh, Hsorted.
  apply Forall_cons in Hblocks as [_ Hblocks].
  apply NoDup_cons in Hnd as [Hpart Hnd].
  apply StronglySorted_inv in Hsorted as [Hsorted _].
  split; simpl; try done.
  - intros p Hp [->%elem_of_singleton|Hin]%elem_of_union; [done|].
    apply (Hfresh p); [by right|done].
  - apply NoDup_app. split; [done|]. split; [|apply NoDup_singleton].
    intros p Hp ->%list_elem_of_singleton.
    apply (Hfresh part); [by left|by apply Hpc].
  - intros p. rewrite elem_of_app, list_elem_of_singleton, elem_of_union,
      elem_of_singleton, Hpc. tauto.
Qed.

Lemma invariant_push {prim : Primitives} (s : state) (part : partition) (rest : list partition)
    (opt : float * Distribution float) :
  search_invariant s → queue s = part :: rest →
  search_invariant
    {| queue := extendleft rest (new_parts ({[part]} ∪ checked s) part);
       checked := {[part]} ∪ checked s;
       optimal := opt; popped := popped s ++ [part] |}.
Proof.
  intros Hs Hq.
  destruct (invariant_pop s part rest opt Hs Hq)
    as [Hblocks' Hnd' Hfresh' Hsorted' Hpnd' Hpc'].
  simpl in Hblocks', Hnd', Hfresh', Hsorted', Hpnd', Hpc'.
  destruct Hs as [Hblocks Hnd Hfresh Hsorted Hpnd Hpc].
  rewrite Hq in Hblocks, Hsorted.
  apply Forall_cons in Hblocks as [Hpart _].
  apply StronglySorted_inv in Hsorted as [_ Hle].
  assert (∀ p, p ∈ new_parts ({[part]} ∪ checked s) part →
               S (size p) = size part ∧ disjoint_blocks p) as Hnew.
  { intros p (_ & a & b & Ha & Hb & Hab & ->)%new_parts_elem_of.
    split; [by apply merge_pair_size|by apply merge_pair_disjoint_blocks]. }
  split; simpl; try done; rewrite extendleft_rev.
  - apply Forall_app. split; [|done].
    apply Forall_reverse, Forall_forall. intros p Hp. by apply Hnew.
  - apply NoDup_app. split; [|split; [|done]].
    + rewrite reverse_Permutation. by apply new_parts_NoDup.
    + intros p Hp Hrest. rewrite elem_of_reverse in Hp.
      apply Hnew in Hp as [Hsize _].
      rewrite Forall_forall in Hle. specialize (Hle p Hrest). lia.
  - intros p [Hp|Hp]%elem_of_app; [|by apply Hfresh'].
    rewrite elem_of_reverse in Hp. by apply new_parts_elem_of in Hp as [? _].
  - apply StronglySorted_app_2; [| |done].
    + intros p q Hp Hq'. rewrite elem_of_reverse in Hp.
      apply Hnew in Hp as [Hsize _].
      rewrite Forall_forall in Hle. specialize (Hle q Hq'). lia.
    + assert (Forall (λ p, S (size p) = size part)
                (reverse (new_parts ({[part]} ∪ checked s) part))) as Hall.
      { apply Forall_reverse, Forall_forall. intros p Hp. by apply Hnew. }
      induction Hall as [|p l Hp Hl IH]; constructor; [done|].
      eapply Forall_impl; [exact Hl|]. intros q Hq'. simpl in Hq'. lia.
Qed.

Section loop_facts.
Context {prim : Primitives}.
Variable dist : Distribution float.
Variables H B : Distribution float → float.
Variable optimal_b : float.

Local Abbreviation loop_body := (loop_body dist H B optimal_b).
Local Abbreviation while_queue := (while_queue dist H B optimal_b).

(** The turn of the loop on a queue that is not empty, by the cases of the
    two tests. *)
Lemma loop_body_cons (s : state) (part : partition) (rest : list partition)
    (d : Distribution float) :
  queue s = part :: rest →
  add_partition dist (blocks_of part) = Some d →
  loop_body s =
    if close (B d) zero then
      if close (H d) optimal_b then
        Stop EarlyExit
          {| queue := rest; checked := {[part]} ∪ checked s;
             optimal := better dist H B (optimal s) part;
             popped := popped s ++ [part] |}
      else
        Next
          {| queue := extendleft rest (new_parts ({[part]} ∪ checked s) part);
             checked := {[part]} ∪ checked s;
             optimal := better dist H B (optimal s) part;
             popped := popped s ++ [part] |}
    else
      Next {| queue := rest; checked := {[part]} ∪ checked s;
              optimal := better dist H B (optimal s) part;
              popped := popped s ++ [part] |}.
Proof.
  intros Hq Hd. unfold loop_body, better. rewrite Hq, Hd.
  destruct (close (B d) zero); [|done].
  by destruct (close (H d) optimal_b).
Qed.

Lemma loop_body_nil (s : state) :
  queue s = [] → loop_body s = Stop QueueEmpty s.
Proof. intros Hq. unfold loop_body. by rewrite Hq. Qed.

(** A property that every turn of the loop keeps holds when the loop is
    left. *)
Lemma while_queue_preserves (I : state → Prop) :
  (∀ s, I s → match loop_body s with
               | Stop _ s' | Next s' => I s'
               | Raises => True
               end) →
  ∀ n s e s', I s → while_queue n s = Return (e, s') → I s'.
Proof.
  intros Hstep. induction n as [|n IH]; intros s e s' Hs; simpl; [done|].
  specialize (Hstep s Hs). destruct (loop_body s) as [e1 s1|s1|].
  - by intros [= <- <-].
  - by apply IH.
  - done.
Qed.

Lemma while_queue_more_fuel (n k : nat) (s : state) (r : exit * state) :
  while_queue n s = Return r → while_queue (n + k) s = Return r.
Proof.
  revert s. induction n as [|n IH]; intros s; simpl; [done|].
  destruct (loop_body s); [done| |done]. apply IH.
Qed.

(** Coverage of the outcomes is kept, so [add_partition] does not raise. *)
Lemma covers_preserved (s : state) :
  Forall (covers (outcomes dist)) (queue s) →
  match loop_body s with
  | Stop _ s' | Next s' => Forall (covers (outcomes dist)) (queue s')
  | Raises => False
  end.
Proof.
  intros Hcov. destruct (queue s) as [|part rest] eqn:Hq.
  { by rewrite loop_body_nil, Hq. }
  apply Forall_cons in Hcov as [Hpart Hrest].
  pose proof (add_partition_Some dist _ (blocks_of_covers _ _ Hpart)) as Hd.
  rewrite (loop_body_cons s part rest _ Hq Hd).
  destruct (close _ _); [|done]. destruct (close _ _); [done|]. simpl.
  rewrite extendleft_rev. apply Forall_app. split; [|done].
  apply Forall_reverse, Forall_forall. intros p Hp.
  apply new_parts_elem_of in Hp as (_ & a & b & _ & _ & _ & ->).
  by apply merge_pair_covers.
Qed.

(** The loop is left after at most [queue_turns] turns. *)
Lemma while_queue_returns (n : nat) (s : state) :
  Forall (covers (outcomes dist)) (queue s) →
  queue_turns (queue s) < n →
  ∃ e s', while_queue n s = Return (e, s').
Proof.
  revert s. induction n as [|n IH]; intros s Hcov Hn; [lia|]. simpl.
  pose proof (covers_preserved s Hcov) as Hcov'.
  destruct (queue s) as [|part rest] eqn:Hq.
  { rewrite loop_body_nil by done. eauto. }
  apply Forall_cons in Hcov as [Hpart Hrest].
  pose proof (add_partition_Some dist _ (blocks_of_covers _ _ Hpart)) as Hd.
  rewrite (loop_body_cons s part rest _ Hq Hd) in Hcov' |- *.
  destruct (close _ _).
  - destruct (close _ _); [eauto|]. apply IH; [done|]. simpl.
    pose proof (queue_turns_successors ({[part]} ∪ checked s) part rest). lia.
  - apply IH; [done|]. simpl.
    change (queue_turns (part :: rest))
      with (turns (size part) + queue_turns rest) in Hn.
    pose proof (turns_pos (size part)). lia.
Qed.

(** The best candidate is the one that [better] builds from the partitions
    taken from the queue, in their order. *)
Lemma optimal_preserved (opt0 : float * Distribution float) (s : state) :
  optimal s = foldl (better dist H B) opt0 (popped s) →
  match loop_body s with
  | Stop _ s' | Next s' =>
      optimal s' = foldl (better dist H B) opt0 (popped s')
  | Raises => True
  end.
Proof.
  intros Hopt. destruct (queue s) as [|part rest] eqn:Hq.
  { by rewrite loop_body_nil. }
  destruct (add_partition dist (blocks_of part)) as [d|] eqn:Hd.
  - rewrite (loop_body_cons s part rest d Hq Hd).
    destruct (close _ _); [destruct (close _ _)|]; simpl;
      by rewrite foldl_app, <-Hopt.
  - unfold loop_body. by rewrite Hq, Hd.
Qed.

(** The best candidate passes the test of line 141 if the first one does. *)
Lemma feasible_preserved (s : state) :
  close (B (optimal s).2) zero = true →
  match loop_body s with
  | Stop _ s' | Next s' => close (B (optimal s').2) zero = true
  | Raises => True
  end.
Proof.
  intros Hopt. destruct (queue s) as [|part rest] eqn:Hq.
  { by rewrite loop_body_nil. }
  destruct (add_partition dist (blocks_of part)) as [d|] eqn:Hd.
  - assert (close (B (better dist H B (optimal s) part).2) zero = true).
    { unfold better. rewrite Hd. destruct (close (B d) zero) eqn:HB; [|done].
      by destruct (leb _ _). }
    rewrite (loop_body_cons s part rest d Hq Hd).
    destruct (close (B d) zero); [destruct (close (H d) optimal_b)|]; done.
  - unfold loop_body. by rewrite Hq, Hd.
Qed.

(** How the loop is left: on an empty queue, or behind a partition that
    passed both tests. *)
Lemma while_queue_exit (n : nat) (s : state) (e : exit) (s' : state) :
  while_queue n s = Return (e, s') →
  match e with
  | QueueEmpty => queue s' = []
  | EarlyExit =>
      ∃ part d, last (popped s') = Some part
        ∧ add_partition dist (blocks_of part) = Some d
        ∧ close (B d) zero = true ∧ close (H d) optimal_b = true
  end.
Proof.
  revert s. induction n as [|n IH]; intros s; simpl; [done|].
  destruct (queue s) as [|part rest] eqn:Hq.
  { rewrite loop_body_nil by done. by intros [= <- <-]. }
  destruct (add_partition dist (blocks_of part)) as [d|] eqn:Hd.
  - rewrite (loop_body_cons s part rest d Hq Hd).
    destruct (close (B d) zero) eqn:HB; [|apply IH].
    destruct (close (H d) optimal_b) eqn:HH; [|apply IH].
    intros [= <- <-]. exists part, d. simpl. by rewrite last_snoc.
  - unfold loop_body. by rewrite Hq, Hd.
Qed.

(** The invariant of the search is kept by every turn of the loop. *)
Lemma invariant_preserved (s : state) :
  search_invariant s →
  match loop_body s with
  | Stop _ s' | Next s' => search_invariant s'
  | Raises => True
  end.
Proof.
  intros Hs. destruct (queue s) as [|part rest] eqn:Hq.
  { by rewrite loop_body_nil. }
  destruct (add_partition dist (blocks_of part)) as [d|] eqn:Hd.
  - rewrite (loop_body_cons s part rest d Hq Hd).
    destruct (close (B d) zero); [destruct (close (H d) optimal_b)|];
      simpl; first [by apply invariant_pop|by apply invariant_push].
  - unfold loop_body. by rewrite Hq, Hd.
Qed.
End loop_facts.


(** ** The search from its entry *)

Section search_facts.
Context {prim : Primitives}.
Implicit Types (dist initial d : Distribution float).
Implicit Types (rvs : option (list (list rv))) (crvs : option (list rv)).
Implicit Types (rv_mode : option RV_MODES).

Lemma modify_outcomes_tuple dist : modify_outcomes dist tuple = dist.
Proof.
  destruct dist as [os ps]. unfold modify_outcomes. simpl. f_equal.
  apply list_fmap_id.
Qed.

Lemma finest_elem_of dist (b : block) :
  b ∈ finest dist ↔ ∃ o, b = {[o]} ∧ o ∈ outcomes dist.
Proof.
  unfold finest. rewrite elem_of_list_to_set, list_elem_of_fmap. done.
Qed.

Lemma finest_covers dist : covers (outcomes dist) (finest dist).
Proof.
  intros o Ho. exists {[o]}. split; [|by apply elem_of_singleton].
  apply finest_elem_of. eauto.
Qed.

Lemma finest_disjoint_blocks dist : disjoint_blocks (finest dist).
Proof.
  split.
  - intros (o & Ho & _)%finest_elem_of.
    assert (o ∈ (∅ : block)) as Hin by (rewrite Ho; by apply elem_of_singleton).
    by apply not_elem_of_empty in Hin.
  - intros b1 b2 (o1 & -> & _)%finest_elem_of (o2 & -> & _)%finest_elem_of Hne.
    apply disjoint_singleton_l. intros ->%elem_of_singleton. done.
Qed.

Lemma finest_size dist : size (finest dist) ≤ length (outcomes dist).
Proof.
  unfold finest. etrans; [apply size_list_to_set_le|]. by rewrite length_fmap.
Qed.

Lemma add_partition_finest dist :
  is_Some (add_partition dist (blocks_of (finest dist))).
Proof.
  rewrite (add_partition_Some dist); [done|].
  apply blocks_of_covers, finest_covers.
Qed.

(** [search] is the loop run from the entry state. *)
Lemma search_eq fuel dist rvs crvs rv_mode :
  search fuel dist rvs crvs rv_mode
  = match add_partition dist (blocks_of (finest dist)) with
    | None => Raise
    | Some initial =>
        while_queue dist (search_H dist rvs crvs rv_mode)
          (search_B dist rvs crvs rv_mode)
          (search_optimal_b dist rvs crvs rv_mode) fuel
          (search_entry dist rvs crvs rv_mode initial)
    end.
Proof.
  unfold search, search_entry, search_H, search_B, search_optimal_b.
  destruct (normalize_rvs dist rvs crvs rv_mode) as [[rvs' crvs'] rv_mode'].
  by rewrite modify_outcomes_tuple.
Qed.

Lemma search_entry_invariant dist rvs crvs rv_mode initial :
  search_invariant (search_entry dist rvs crvs rv_mode initial).
Proof.
  split; simpl.
  - constructor; [apply finest_disjoint_blocks|constructor].
  - apply NoDup_singleton.
  - intros p _. apply not_elem_of_empty.
  - repeat constructor.
  - constructor.
  - intros p. split; [by intros ?%elem_of_nil|by intros ?%not_elem_of_empty].
Qed.

(** The search returns on every distribution, with [search_fuel] or more. *)
Lemma search_returns dist rvs crvs rv_mode (k : nat) :
  ∃ initial e s,
    add_partition dist (blocks_of (finest dist)) = Some initial
    ∧ while_queue dist (search_H dist rvs crvs rv_mode)
        (search_B dist rvs crvs rv_mode)
        (search_optimal_b dist rvs crvs rv_mode) (search_fuel dist + k)
        (search_entry dist rvs crvs rv_mode initial) = Return (e, s)
    ∧ search (search_fuel dist + k) dist rvs crvs rv_mode = Return (e, s).
Proof.
  destruct (add_partition_finest dist) as [initial Hinitial].
  edestruct (while_queue_returns dist (search_H dist rvs crvs rv_mode)
               (search_B dist rvs crvs rv_mode)
               (search_optimal_b dist rvs crvs rv_mode) (search_fuel dist)
               (search_entry dist rvs crvs rv_mode initial))
    as (e & s & Hrun).
  { constructor; [apply finest_covers|constructor]. }
  { unfold search_fuel, queue_turns. simpl.
    pose proof (turns_mono _ _ (finest_size dist)). lia. }
  exists initial, e, s. split; [done|].
  apply (while_queue_more_fuel _ _ _ _ _ k) in Hrun.
  by rewrite search_eq, Hinitial.
Qed.

(** The search returns a candidate that passes the test of line 141 if the
    candidate of line 128 passes it. *)
Lemma search_feasible dist rvs crvs rv_mode (k : nat) :
  (∀ initial, add_partition dist (blocks_of (finest dist)) = Some initial →
              close (search_B dist rvs crvs rv_mode initial) zero = true) →
  ∃ e s, search (search_fuel dist + k) dist rvs crvs rv_mode = Return (e, s)
         ∧ close (search_B dist rvs crvs rv_mode (optimal s).2) zero = true.
Proof.
  intros Hfinest.
  destruct (search_returns dist rvs crvs rv_mode k)
    as (initial & e & s & Hinitial & Hrun & Hsearch).
  exists e, s. split; [done|].
  eapply (while_queue_preserves _ _ _ _
            (λ s, close (search_B dist rvs crvs rv_mode (optimal s).2) zero
                  = true)); [apply feasible_preserved| |exact Hrun].
  simpl. by apply Hfinest.
Qed.
End search_facts.


(** ** The exact measures on the finest partition

    In the exact model the candidate of line 128 passes the test of line 141
    on every well-formed distribution: its added variable tells the outcomes
    apart, so every conditional entropy given this variable is zero. *)

Section exact_finest.
Import exact.
Implicit Types (dist d : Distribution xfloat) (o : outcome).

Local Abbreviation finest := (finest (prim := primitives)).

Lemma denominator_pos dist : (0 < denominator dist)%Z.
Proof.
  unfold denominator. induction (pmf dist) as [|x l IH]; simpl; [done|].
  pose proof (Z.lcm_nonneg (Z.pos (Qden (mass_of x)))
                (foldr (λ x n, Z.lcm (Z.pos (Qden (mass_of x))) n) 1%Z l)).
  pose proof (proj1 (Z.lcm_eq_0 (Z.pos (Qden (mass_of x)))
                (foldr (λ x n, Z.lcm (Z.pos (Qden (mass_of x))) n) 1%Z l))).
  lia.
Qed.

Lemma count_nonneg (N : Z) (x : xfloat) :
  (0 < N)%Z → (0 ≤ Qnum (mass_of x))%Z → (0 ≤ count N x)%Z.
Proof.
  intros HN Hx. unfold count. apply Z.mul_nonneg_nonneg; [done|].
  apply Z.div_pos; lia.
Qed.

Lemma counts_nonneg dist :
  Forall (λ x, (0 ≤ Qnum (mass_of x))%Z) (pmf dist) →
  Forall (λ ox, (0 ≤ count (denominator dist) ox.2)%Z)
         (zip (outcomes dist) (pmf dist)).
Proof.
  intros Hmass. apply Forall_forall. intros [o x] Hox. simpl.
  apply count_nonneg; [apply denominator_pos|].
  rewrite Forall_forall in Hmass. apply Hmass.
  apply elem_of_zip_r in Hox. done.
Qed.

(** The atom of an outcome has at least the mass of the outcome. *)
Lemma atom_count_ge dist (rvs : list rv) o (x : xfloat) :
  Forall (λ x, (0 ≤ Qnum (mass_of x))%Z) (pmf dist) →
  (o, x) ∈ zip (outcomes dist) (pmf dist) →
  (count (denominator dist) x ≤ atom_count dist rvs o)%Z.
Proof.
  intros Hwf. pose proof (counts_nonneg dist Hwf) as Hnn. unfold atom_count.
  induction Hnn as [|[o' x'] l Hx' Hl IH]; [by intros ?%elem_of_nil|].
  assert (0 ≤ foldr (λ ox acc, if decide (project rvs ox.1 = project rvs o)
                               then count (denominator dist) ox.2 + acc
                               else acc) 0 l)%Z as Hsum.
  { clear IH. induction Hl as [|[o'' x''] l Hx'' Hl IH]; simpl; [done|].
    simpl in Hx''. case_decide; lia. }
  simpl in Hx'. intros [[= <- <-]|Hin]%elem_of_cons; simpl.
  - rewrite decide_True by done. lia.
  - specialize (IH Hin). case_decide; lia.
Qed.

Lemma H_joint_nonzero dist (rvs : list rv) :
  Forall (λ x, (0 ≤ Qnum (mass_of x))%Z) (pmf dist) →
  ¬ (H_joint dist rvs == 0)%Q.
Proof.
  intros Hwf. unfold H_joint.
  pose proof (denominator_pos dist) as HN.
  assert (0 < denominator dist ^ denominator dist)%Z as Hnum
    by (apply Z.pow_pos_nonneg; lia).
  assert (0 < foldr (λ ox acc, atom_count dist rvs ox.1
                               ^ count (denominator dist) ox.2 * acc)
                1 (zip (outcomes dist) (pmf dist)))%Z as Hden.
  { assert (Forall (λ ox, ox ∈ zip (outcomes dist) (pmf dist))
              (zip (outcomes dist) (pmf dist))) as Hall
      by (by apply Forall_forall).
    induction Hall as [|[o x] l Hox Hl IH]; simpl; [done|].
    apply Z.mul_pos_pos; [|done].
    pose proof (atom_count_ge dist rvs o x Hwf Hox) as Hge.
    pose proof (counts_nonneg dist Hwf) as Hnn.
    rewrite Forall_forall in Hnn. specialize (Hnn _ Hox). simpl in Hnn.
    destruct (decide (count (denominator dist) x = 0%Z)) as [->|Hne]; [done|].
    apply Z.pow_pos_nonneg; lia. }
  revert Hnum Hden.
  generalize (denominator dist ^ denominator dist)%Z as a.
  generalize (foldr (λ ox acc, atom_count dist rvs ox.1
                               ^ count (denominator dist) ox.2 * acc)
                1 (zip (outcomes dist) (pmf dist)))%Z as b.
  intros [|b|b] a Ha Hb; try lia.
  unfold Qeq, Qdiv, Qmult, Qinv, inject_Z. simpl. lia.
Qed.

(** The entropy of a set of variables depends only on which outcomes they
    tell apart. *)
Lemma H_joint_ext dist (rvs1 rvs2 : list rv) :
  (∀ o o', o ∈ outcomes dist → o' ∈ outcomes dist →
           project rvs1 o = project rvs1 o' ↔ project rvs2 o = project rvs2 o') →
  H_joint dist rvs1 = H_joint dist rvs2.
Proof.
  intros Hsame.
  assert (∀ o, o ∈ outcomes dist →
               atom_count dist rvs1 o = atom_count dist rvs2 o) as Hatom.
  { intros o Ho. unfold atom_count.
    assert (Forall (λ ox, ox.1 ∈ outcomes dist)
              (zip (outcomes dist) (pmf dist))) as Hall.
    { apply Forall_forall. intros [o' x] Hox. by apply elem_of_zip_l in Hox. }
    induction Hall as [|[o' x] l Ho' Hl IH]; simpl; [done|].
    simpl in Ho'. rewrite IH.
    destruct (decide (project rvs1 o' = project rvs1 o)) as [Heq|Hne].
    - rewrite decide_True; [done|]. by apply Hsame.
    - rewrite decide_False; [done|]. intros Heq. by apply Hne, Hsame. }
  unfold H_joint. do 2 f_equal.
  assert (Forall (λ ox, ox.1 ∈ outcomes dist)
            (zip (outcomes dist) (pmf dist))) as Hall.
  { apply Forall_forall. intros [o' x] Hox. by apply elem_of_zip_l in Hox. }
  induction Hall as [|[o' x] l Ho' Hl IH]; simpl; [done|].
  simpl in Ho'. by rewrite IH, Hatom.
Qed.

Lemma H_cond_same dist (rvs crvs : list rv) :
  Forall (λ x, (0 ≤ Qnum (mass_of x))%Z) (pmf dist) →
  H_joint dist (rvs ++ crvs) = H_joint dist crvs →
  (H_cond dist rvs crvs == 1)%Q.
Proof.
  intros Hmass Heq. unfold H_cond. rewrite Heq.
  apply Qmult_inv_r. by apply H_joint_nonzero.
Qed.

Lemma finest_in_block (dist : Distribution xfloat) (i : nat) o :
  in_block (blocks_of (finest dist)) i o
  ↔ elements (finest dist) !! i = Some {[o]}.
Proof.
  unfold in_block, blocks_of. split.
  - intros (es & Hes & Hin). rewrite list_lookup_fmap in Hes.
    destruct (elements (finest dist) !! i) as [b|] eqn:Hb; [|done].
    injection Hes as <-.
    assert (b ∈ finest dist) as (o' & -> & _)%finest_elem_of.
    { apply elem_of_elements, list_elem_of_lookup. eauto. }
    rewrite elements_singleton in Hin.
    by apply list_elem_of_singleton in Hin as ->.
  - intros Hi. exists [o]. rewrite list_lookup_fmap, Hi. simpl.
    rewrite elements_singleton. split; [done|]. by apply list_elem_of_singleton.
Qed.

(** The labels of the finest partition tell the outcomes apart. *)
Lemma finest_label_inj (dist : Distribution xfloat) o1 o2 :
  o1 ∈ outcomes dist → o2 ∈ outcomes dist →
  label (blocks_of (finest dist)) o1 = label (blocks_of (finest dist)) o2 →
  o1 = o2.
Proof.
  intros Ho1 Ho2 Heq.
  destruct (blocks_of_covers _ _ (finest_covers (prim := primitives) dist) o1 Ho1) as [i1 Hi1].
  destruct (blocks_of_covers _ _ (finest_covers (prim := primitives) dist) o2 Ho2) as [i2 Hi2].
  apply label_greatest in Hi1 as [Hi1 _]. apply label_greatest in Hi2 as [Hi2 _].
  rewrite Heq in Hi1. apply finest_in_block in Hi1, Hi2.
  rewrite Hi1 in Hi2. apply (inj Some) in Hi2.
  assert (o1 ∈ ({[o2]} : block)) as Hin
    by (rewrite <-Hi2; by apply elem_of_singleton).
  by apply elem_of_singleton in Hin.
Qed.

Lemma project_snoc (rvs : list rv) (w : nat) o (l : nat) :
  length o = w →
  project (rvs ++ [RvIndex w]) (o ++ [l]) = project rvs (o ++ [l]) ++ [l].
Proof.
  intros Hw. unfold project. rewrite bind_app, fmap_app. f_equal. simpl.
  by rewrite list_lookup_middle.
Qed.

(** On the candidate of line 128, two sets of variables that both hold the
    added variable have the same entropy. *)
Lemma H_joint_finest dist (rvs1 rvs2 : list rv) :
  Forall (λ o, length o = outcome_length dist) (outcomes dist) →
  let initial :=
    {| outcomes := (λ o, o ++ [label (blocks_of (finest dist)) o])
                     <$> outcomes dist;
       pmf := pmf dist |} in
  H_joint initial (rvs1 ++ [RvIndex (outcome_length dist)])
  = H_joint initial (rvs2 ++ [RvIndex (outcome_length dist)]).
Proof.
  intros Hlen initial.
  assert (∀ (rvs : list rv) o o',
            o ∈ outcomes initial → o' ∈ outcomes initial →
            project (rvs ++ [RvIndex (outcome_length dist)]) o
            = project (rvs ++ [RvIndex (outcome_length dist)]) o' ↔ o = o')
    as Hinj.
  { intros rvs ? ? (o & -> & Ho)%list_elem_of_fmap
      (o' & -> & Ho')%list_elem_of_fmap.
    split; [|by intros ->].
    rewrite Forall_forall in Hlen.
    rewrite !project_snoc by by apply Hlen.
    intros [_ [= Hlabel]]%app_inj_2; [|done].
    by rewrite (finest_label_inj dist o o' Ho Ho' Hlabel). }
  apply H_joint_ext. intros o o' Ho Ho'. by rewrite !Hinj.
Qed.

(** The candidate of line 128 passes the test of line 141. *)
Lemma exact_finest_feasible dist (rvs : option (list (list rv)))
    (crvs : option (list rv)) (rv_mode : option RV_MODES)
    (initial : Distribution xfloat) :
  well_formed dist →
  add_partition dist (blocks_of (finest dist)) = Some initial →
  close (search_B dist rvs crvs rv_mode initial) zero = true.
Proof.
  intros [Hmass Hlen] Hinitial.
  rewrite (add_partition_Some dist) in Hinitial
    by apply blocks_of_covers, (finest_covers (prim := primitives)).
  injection Hinitial as <-.
  unfold search_B.
  destruct (normalize_rvs (Primitives := primitives) dist rvs crvs rv_mode)
    as [[rvs' crvs'] rv_mode'].
  simpl. apply Qeq_bool_iff. unfold dtc.
  assert (∀ g c : list rv,
            (H_cond {| outcomes := (λ o, o ++ [label (blocks_of (finest dist)) o])
                                     <$> outcomes dist;
                       pmf := pmf dist |}
               g (c ++ crvs' ++ [RvIndex (outcome_length dist)]) == 1)%Q)
    as Hone.
  { intros g c. apply H_cond_same; [done|].
    rewrite !app_assoc. by apply H_joint_finest. }
  assert (∀ all l : list (list rv),
            (foldr (λ g acc,
                      H_cond {| outcomes := (λ o, o ++ [label (blocks_of (finest dist)) o])
                                              <$> outcomes dist;
                                pmf := pmf dist |}
                        g (others g all ++ crvs' ++ [RvIndex (outcome_length dist)])
                      * acc)%Q 1%Q l == 1)%Q) as Hgroups.
  { intros all l. induction l as [|g l IH]; simpl; [done|].
    by rewrite IH, Hone. }
  pose proof (Hone (concat rvs') []) as Hall. simpl in Hall.
  by rewrite Hall, Hgroups.
Qed.
End exact_finest.

(** In the exact model the search returns, on every well-formed
    distribution, a candidate that passes the test of line 141. *)
Lemma exact_search_feasible (dist : Distribution exact.xfloat)
    (rvs : option (list (list rv))) (crvs : option (list rv))
    (rv_mode : option RV_MODES) (k : nat) :
  exact.well_formed dist →
  ∃ e s, search (search_fuel dist + k) dist rvs crvs rv_mode = Return (e, s)
         ∧ close (search_B dist rvs crvs rv_mode (optimal s).2) zero = true.
Proof.
  intros Hwf. apply (search_feasible (prim := exact.primitives)).
  intros initial. by apply exact_finest_feasible.
Qed.

(** The scenarios of the specification, in the exact model.  Two copies of a
    fair bit: one bit, 2^(2 * 1) = 4.  Two independent fair bits: no bit,
    2^(4 * 0) = 1.  Three equally likely outcomes 00, 01, 11: the entropy of
    a variable with the masses 2/3 and 1/3, 2^(3 H) = 27/4. *)
Example copy_bits_one_bit :
  functional_common_information (search_fuel exact.copy_bits)
    exact.copy_bits None None None = Return (exact.Bits 4).
Proof. vm_compute. reflexivity. Qed.

Example independent_bits_no_bit :
  functional_common_information (search_fuel exact.independent_bits)
    exact.independent_bits None None None = Return (exact.Bits (256 # 256)).
Proof. vm_compute. reflexivity. Qed.

Example three_outcomes_entropy :
  functional_common_information (search_fuel exact.three_outcomes)
    exact.three_outcomes None None None = Return (exact.Bits (27 # 4)).
Proof. vm_compute. reflexivity. Qed.

(** On the three scenarios the brute force over all partitions returns a
    distribution whose added variable has the entropy of the one that the
    search returns. *)
Example naive_agrees_on_scenarios :
  Forall (λ dist,
            ∃ d d',
              functional_markov_chain (search_fuel dist) dist None None None
              = Return d
              ∧ functional_markov_chain_naive dist None None None = Return d'
              ∧ close (entropy d [RvIndex (outcome_length dist)] None)
                  (entropy d' [RvIndex (outcome_length dist)] None) = true)
         [exact.copy_bits; exact.independent_bits; exact.three_outcomes].
Proof.
  repeat constructor; do 2 eexists;
    (split; [vm_compute; reflexivity|split; vm_compute; reflexivity]).
Qed.

(** ** The statements of the specification *)

Lemma StronglySorted_reverse {A} (R : relation A) (l : list A) :
  StronglySorted R l → StronglySorted (flip R) (reverse l).
Proof.
  induction 1 as [|x l Hl IH Hx]; [constructor|].
  rewrite reverse_cons. apply StronglySorted_app_2; [|done|by repeat constructor].
  intros y z Hy ->%list_elem_of_singleton. rewrite elem_of_reverse in Hy.
  rewrite Forall_forall in Hx. by apply Hx.
Qed.

Section claims.
Context {prim : Primitives}.
Implicit Types (dist initial d : Distribution float).
Implicit Types (rvs : option (list (list rv))) (crvs : option (list rv)).
Implicit Types (rv_mode : option RV_MODES) (s : state).
Implicit Types (part : partition) (rest : list partition).

(** C2. The distribution that [functional_markov_chain] returns passes the
    test of line 141: the dual total correlation of rvs, conditioned on crvs
    and the added variable, is close to zero.  The candidate of line 128,
    made of the finest partition, is stored before line 141 tests it; the
    statement takes from the measure that this candidate passes the test (its
    added variable determines the whole outcome). *)
Theorem functional_markov_chain_feasible dist rvs crvs rv_mode (k : nat) :
  (∀ initial, add_partition dist (blocks_of (finest dist)) = Some initial →
              close (search_B dist rvs crvs rv_mode initial) zero = true) →
  ∃ d, functional_markov_chain (search_fuel dist + k) dist rvs crvs rv_mode
       = Return d
       ∧ close (search_B dist rvs crvs rv_mode d) zero = true.
Proof.
  intros Hfinest.
  destruct (search_feasible dist rvs crvs rv_mode k Hfinest)
    as (e & s & Hsearch & Hfeasible).
  exists (optimal s).2. unfold functional_markov_chain. by rewrite Hsearch.
Qed.

(** C3. When the partition at the front of the queue passes the test of line
    141 and its entropy is close to [optimal_b], the loop is left in this
    very turn, whatever fuel is left: the rest of the queue stays as it is,
    no other partition is given to [add_partition], and the best candidate is
    the one of line 146. *)
Theorem early_exit_stops_search dist (H B : Distribution float → float)
    (optimal_b : float) s part rest d (fuel : nat) :
  queue s = part :: rest →
  add_partition dist (blocks_of part) = Some d →
  close (B d) zero = true →
  close (H d) optimal_b = true →
  while_queue dist H B optimal_b (S fuel) s
  = Return (EarlyExit,
            {| queue := rest; checked := {[part]} ∪ checked s;
               optimal := if leb (H d) (optimal s).1 then (H d, d)
                          else optimal s;
               popped := popped s ++ [part] |}).
Proof.
  intros Hq Hd HB HH. simpl. unfold loop_body. by rewrite Hq, Hd, HB, HH.
Qed.

(** C4. With [search_fuel] or more, the loop of [functional_markov_chain] is
    left, on every distribution and for every measure: through an empty queue
    or through the early exit behind a partition that passed both tests.  In
    both cases the function returns the best candidate, that is the one
    [better] has built from the partitions taken from the queue. *)
Theorem functional_markov_chain_terminates dist rvs crvs rv_mode (k : nat) :
  ∃ initial e s,
    add_partition dist (blocks_of (finest dist)) = Some initial
    ∧ search (search_fuel dist + k) dist rvs crvs rv_mode = Return (e, s)
    ∧ functional_markov_chain (search_fuel dist + k) dist rvs crvs rv_mode
      = Return (optimal s).2
    ∧ optimal s
      = foldl (better dist (search_H dist rvs crvs rv_mode)
                 (search_B dist rvs crvs rv_mode))
          (search_H dist rvs crvs rv_mode initial, initial) (popped s)
    ∧ match e with
      | QueueEmpty => queue s = []
      | EarlyExit =>
          ∃ part d, last (popped s) = Some part
            ∧ add_partition dist (blocks_of part) = Some d
            ∧ close (search_B dist rvs crvs rv_mode d) zero = true
            ∧ close (search_H dist rvs crvs rv_mode d)
                (search_optimal_b dist rvs crvs rv_mode) = true
      end.
Proof.
  destruct (search_returns dist rvs crvs rv_mode k)
    as (initial & e & s & Hinitial & Hrun & Hsearch).
  exists initial, e, s. split; [done|]. split; [done|].
  split; [|split].
  - unfold functional_markov_chain. by rewrite Hsearch.
  - eapply (while_queue_preserves _ _ _ _
              (λ s, optimal s = foldl _ _ (popped s)));
      [apply optimal_preserved| |exact Hrun].
    done.
  - by eapply while_queue_exit.
Qed.

(** C5. A partition that fails the test of line 141 adds nothing to the
    queue: the turn leaves the rest of the queue and the best candidate as
    they were.  Successors enter the queue only in a turn whose partition
    passed the test. *)
Theorem infeasible_not_expanded dist (H B : Distribution float → float)
    (optimal_b : float) s part rest d :
  queue s = part :: rest →
  add_partition dist (blocks_of part) = Some d →
  (close (B d) zero = false →
   loop_body dist H B optimal_b s
   = Next {| queue := rest; checked := {[part]} ∪ checked s;
             optimal := optimal s; popped := popped s ++ [part] |})
  ∧ (∀ s', loop_body dist H B optimal_b s = Next s' → queue s' ≠ rest →
           close (B d) zero = true).
Proof.
  intros Hq Hd. unfold loop_body. rewrite Hq, Hd.
  destruct (close (B d) zero); [|split; [done|]].
  - split; [done|]. done.
  - by intros s' [= <-].
Qed.

(** C6. In the run of [functional_markov_chain], no partition is taken from
    the queue and given to [add_partition] twice, and the visited set is the
    set of the partitions taken. *)
Theorem no_partition_popped_twice dist rvs crvs rv_mode (k : nat) :
  ∃ e s,
    search (search_fuel dist + k) dist rvs crvs rv_mode = Return (e, s)
    ∧ NoDup (popped s)
    ∧ ∀ p, p ∈ popped s ↔ p ∈ checked s.
Proof.
  destruct (search_returns dist rvs crvs rv_mode k)
    as (initial & e & s & Hinitial & Hrun & Hsearch).
  exists e, s. split; [done|].
  assert (search_invariant s) as [_ _ _ _ Hnd Hpc]; [|done].
  eapply (while_queue_preserves _ _ _ _ search_invariant);
    [apply invariant_preserved| |exact Hrun].
  apply search_entry_invariant.
Qed.

(** C9, amended.  When a partition passed the test of line 141 and the loop
    goes on, the successors that are not visited are sorted in ascending
    order of their sorted block sizes, and [extendleft] puts them in front of
    the queue one by one: they stand there in descending order, the
    successor with the greatest key first. *)
Theorem successors_prepended_reversed dist (H B : Distribution float → float)
    (optimal_b : float) s part rest d :
  queue s = part :: rest →
  add_partition dist (blocks_of part) = Some d →
  close (B d) zero = true →
  close (H d) optimal_b = false →
  ∃ batch s',
    loop_body dist H B optimal_b s = Next s'
    ∧ queue s' = reverse batch ++ rest
    ∧ batch ≡ₚ filter (λ p, p ∉ {[part]} ∪ checked s)
                 (merge_pair part <$> combinations2 (elements part))
    ∧ StronglySorted (key_le size_key) batch
    ∧ StronglySorted (flip (key_le size_key)) (reverse batch).
Proof.
  intros Hq Hd HB HH. exists (new_parts ({[part]} ∪ checked s) part).
  eexists. unfold loop_body. rewrite Hq, Hd, HB, HH. split; [done|]. simpl.
  split; [apply extendleft_rev|]. split; [apply new_parts_Permutation|].
  assert (StronglySorted (key_le size_key)
            (new_parts ({[part]} ∪ checked s) part)) as Hsorted
    by apply sorted_by_sorted.
  split; [done|]. by apply StronglySorted_reverse.
Qed.

(** C10. [functional_common_information] returns the entropy of the variable
    at index [dist.outcome_length()] of the distribution that
    [functional_markov_chain] returns, computed with rv_mode None, whatever
    rv_mode the call was given. *)
Theorem functional_common_information_entropy dist rvs crvs rv_mode (k : nat) :
  ∃ d, functional_markov_chain (search_fuel dist + k) dist rvs crvs rv_mode
       = Return d
       ∧ functional_common_information (search_fuel dist + k) dist rvs crvs
           rv_mode
         = Return (entropy d [RvIndex (outcome_length dist)] None).
Proof.
  destruct (search_returns dist rvs crvs rv_mode k)
    as (initial & e & s & Hinitial & Hrun & Hsearch).
  exists (optimal s).2.
  unfold functional_common_information, functional_markov_chain.
  by rewrite Hsearch.
Qed.
End claims.

(** Two copies of a fair bit: the finest partition passes the test, and both
    its added variable and the dual total correlation of the two bits have
    one bit. *)
Lemma functional_markov_chain_feasible_witness :
  ∃ d, functional_markov_chain (search_fuel exact.copy_bits + 0)
         exact.copy_bits None None None = Return d
       ∧ close (exact_B exact.copy_bits d) zero = true.
Proof.
  apply (functional_markov_chain_feasible (prim := exact.primitives)
           exact.copy_bits None None None 0).
  intros initial Hinitial. vm_compute in Hinitial.
  injection Hinitial as <-. vm_compute. reflexivity.
Defined.

Lemma early_exit_stops_search_witness :
  ∃ s, while_queue exact.copy_bits (exact_H exact.copy_bits)
         (exact_B exact.copy_bits) (exact_optimal_b exact.copy_bits) 1
         (exact_entry exact.copy_bits) = Return (EarlyExit, s)
       ∧ queue s = [] ∧ popped s = [finest exact.copy_bits].
Proof.
  eexists. split.
  - apply (early_exit_stops_search (prim := exact.primitives)
             exact.copy_bits _ _ _
             (exact_entry exact.copy_bits)
             (finest (prim := exact.primitives) exact.copy_bits) []
             {| outcomes := [[0; 0; 0]; [1; 1; 1]];
                pmf := pmf exact.copy_bits |} 0);
      [reflexivity|vm_compute; reflexivity..].
  - split; reflexivity.
Defined.

(** Three equally likely outcomes 00, 01, 11: the third partition taken from
    the queue is the one-block partition, which fails the test. *)
Lemma infeasible_not_expanded_witness :
  exact_loop_body exact.three_outcomes (exact_turn 2 exact.three_outcomes)
  = Next {| queue := tail (queue (exact_turn 2 exact.three_outcomes));
            checked := {[ {[ {[ [0; 0]; [0; 1]; [1; 1] ]} ]} ]}
                       ∪ checked (exact_turn 2 exact.three_outcomes);
            optimal := optimal (exact_turn 2 exact.three_outcomes);
            popped := popped (exact_turn 2 exact.three_outcomes)
                      ++ [ {[ {[ [0; 0]; [0; 1]; [1; 1] ]} ]} ] |}.
Proof.
  refine (proj1 (infeasible_not_expanded (prim := exact.primitives)
                   exact.three_outcomes _ _ _
                   (exact_turn 2 exact.three_outcomes)
                   {[ {[ [0; 0]; [0; 1]; [1; 1] ]} ]} _
                   {| outcomes := [[0; 0; 0]; [0; 1; 0]; [1; 1; 0]];
                      pmf := pmf exact.three_outcomes |} _ _) _).
  - apply (bool_decide_unpack _). vm_compute. exact I.
  - vm_compute. reflexivity.
  - vm_compute. reflexivity.
Defined.

(** Two independent fair bits: the second partition taken from the queue
    passes the test, with an entropy of 3/2 bits. *)
Lemma successors_prepended_reversed_witness :
  ∃ batch s',
    exact_loop_body exact.independent_bits
      (exact_turn 1 exact.independent_bits) = Next s'
    ∧ queue s'
      = reverse batch ++ tail (queue (exact_turn 1 exact.independent_bits))
    ∧ batch ≡ₚ filter (λ p, p ∉ {[ {[ {[ [0; 0] ]}; {[ [0; 1] ]};
                                      {[ [1; 0]; [1; 1] ]} ]} ]}
                                ∪ checked (exact_turn 1 exact.independent_bits))
                 (merge_pair {[ {[ [0; 0] ]}; {[ [0; 1] ]};
                                {[ [1; 0]; [1; 1] ]} ]}
                    <$> combinations2
                          (elements ({[ {[ [0; 0] ]}; {[ [0; 1] ]};
                                        {[ [1; 0]; [1; 1] ]} ]} : partition)))
    ∧ StronglySorted (key_le size_key) batch
    ∧ StronglySorted (flip (key_le size_key)) (reverse batch).
Proof.
  apply (successors_prepended_reversed (prim := exact.primitives)
           exact.independent_bits _ _ _
           (exact_turn 1 exact.independent_bits)
           {[ {[ [0; 0] ]}; {[ [0; 1] ]}; {[ [1; 0]; [1; 1] ]} ]} _
           {| outcomes := [[0; 0; 0]; [0; 1; 1]; [1; 0; 2]; [1; 1; 2]];
              pmf := pmf exact.independent_bits |}).
  - apply (bool_decide_unpack _). vm_compute. exact I.
  - vm_compute. reflexivity.
  - vm_compute. reflexivity.
  - vm_compute. reflexivity.
Defined.

(** C9, as stated, fails on two independent fair bits.  The second partition
    taken from the queue has the blocks {00}, {01}, {10, 11}; its successors
    have the keys [1, 3], [1, 3], [2, 2] in sorted order, and the queue does
    not continue with them in this order: the balanced successor, of key
    [2, 2], stands first and is the next partition taken, and the run ends
    with the two successors of key [1, 3] still in the queue. *)
Lemma balanced_successor_popped_first :
  let part : partition :=
    {[ {[ [0; 0] ]}; {[ [0; 1] ]}; {[ [1; 0]; [1; 1] ]} ]} in
  let s := exact_turn 1 exact.independent_bits in
  let s' := exact_turn 2 exact.independent_bits in
  queue s = part :: tail (queue s)
  ∧ size_key <$> new_parts ({[part]} ∪ checked s) part
    = [[1; 3]; [1; 3]; [2; 2]]
  ∧ queue s' ≠ new_parts ({[part]} ∪ checked s) part ++ tail (queue s)
  ∧ size_key <$> take 3 (queue s') = [[2; 2]; [1; 3]; [1; 3]]
  ∧ size_trace (search (search_fuel exact.independent_bits)
                  exact.independent_bits None None None)
    = Some (EarlyExit,
            [[1; 1; 1; 1]; [1; 1; 2]; [2; 2]; [4]],
            [[1; 3]; [1; 3]; [1; 1; 2]; [1; 1; 2]; [1; 1; 2]; [1; 1; 2];
             [1; 1; 2]]).
Proof.
  intros part s s'. split; [|split; [|split; [|split]]].
  - apply (bool_decide_unpack _). vm_compute. exact I.
  - vm_compute. reflexivity.
  - apply (proj1 (bool_decide_eq_false _)). vm_compute. reflexivity.
  - vm_compute. reflexivity.
  - vm_compute. reflexivity.
Qed.


(** * More of the module *)

(** ** add_partition: what it keeps and where the label goes *)

Section add_partition_more.
Context {float : Type}.
Implicit Types (dist d : Distribution float) (part : list (list outcome)).
Implicit Types (o : outcome).

(** A call that returns has found every outcome in a block, and has built the
    distribution of [add_partition_Some]. *)
Lemma add_partition_Some_inv dist part d :
  add_partition dist part = Some d →
  (∀ o, o ∈ outcomes dist → ∃ i, in_block part i o)
  ∧ d = {| outcomes := (λ o, o ++ [label part o]) <$> outcomes dist;
           pmf := pmf dist |}.
Proof.
  intros Hd.
  assert (∀ o, o ∈ outcomes dist → ∃ i, in_block part i o) as Hcov.
  { intros o Ho. destruct (invert_part part !! o) as [v|] eqn:Hv.
    - apply invert_part_Some in Hv as (i & _ & Hi & _). eauto.
    - assert (add_partition dist part = None) as Hnone; [|congruence].
      apply add_partition_None. exists o. split; [done|].
      by apply invert_part_None. }
  split; [done|]. rewrite (add_partition_Some dist part Hcov) in Hd.
  by injection Hd as <-.
Qed.



(** The label is the position of the last block that holds the outcome, so
    two partitions that place the outcome in the same blocks label it
    alike. *)
Lemma label_ext part part' o :
  (∀ i, in_block part i o ↔ in_block part' i o) →
  (∃ i, in_block part i o) → label part o = label part' o.
Proof.
  intros Hsame [i Hi].
  destruct (label_greatest part o i Hi) as [Hl _].
  destruct (label_greatest part' o i (proj1 (Hsame i) Hi)) as [Hl' _].
  destruct (label_greatest part o _ (proj2 (Hsame _) Hl')) as [_ Hle].
  destruct (label_greatest part' o _ (proj1 (Hsame _) Hl)) as [_ Hle'].
  lia.
Qed.

(** X3. [add_partition] looks only at which blocks hold the outcomes of the
    distribution: the order inside a block, repeated elements, and elements
    that are not outcomes of the distribution make no difference, neither to
    the result nor to whether the call raises. *)
Theorem add_partition_membership_only dist part part' :
  (∀ o i, o ∈ outcomes dist → in_block part i o ↔ in_block part' i o) →
  add_partition dist part = add_partition dist part'.
Proof.
  intros Hsame.
  destruct (add_partition dist part) as [d|] eqn:Hd.
  - apply add_partition_Some_inv in Hd as [Hcov ->]. symmetry.
    rewrite (add_partition_Some dist part').
    + f_equal. f_equal. apply list_fmap_ext. intros i o Ho.
      apply list_elem_of_lookup_2 in Ho. f_equal. f_equal. symmetry.
      apply label_ext; [intros j; by apply Hsame|by apply Hcov].
    + intros o Ho. destruct (Hcov o Ho) as [i Hi]. exists i. by apply Hsame.
  - symmetry. apply add_partition_None.
    apply add_partition_None in Hd as (o & Ho & Hno).
    exists o. split; [done|]. intros i Hi. apply (Hno i). by apply Hsame.
Qed.
End add_partition_more.

(** ** The successors of a partition *)

Lemma choose2_double (n : nat) : 2 * choose2 n = n * (n - 1).
Proof. induction n as [|n IH]; simpl; [done|]. destruct n; simpl in *; lia. Qed.

Lemma combinations2_complete {A} (l : list A) (a b : A) :
  a ∈ l → b ∈ l → a ≠ b →
  (a, b) ∈ combinations2 l ∨ (b, a) ∈ combinations2 l.
Proof.
  induction l as [|x l IH]; [by intros ?%elem_of_nil|]. simpl.
  intros [->|Ha]%elem_of_cons [->|Hb]%elem_of_cons Hab; try done.
  - left. apply elem_of_app. left. by apply list_elem_of_fmap_2.
  - right. apply elem_of_app. left. by apply list_elem_of_fmap_2.
  - destruct (IH Ha Hb Hab); [left|right]; apply elem_of_app; by right.
Qed.

Lemma merge_pair_comm (part : partition) (a b : block) :
  merge_pair part (a, b) = merge_pair part (b, a).
Proof.
  rewrite !merge_pair_eq. f_equal; [f_equal|f_equal]; apply set_eq; intros x.
  - rewrite !elem_of_union, !elem_of_singleton. tauto.
  - rewrite !elem_of_union. tauto.
Qed.

(** The successors are the partitions that lines 151 to 153 build. *)
Lemma successor_elem_of (p q : partition) :
  successor p q ↔ q ∈ merge_pair p <$> combinations2 (elements p).
Proof.
  split.
  - intros (a & b & Ha & Hb & Hab & ->).
    destruct (combinations2_complete (elements p) a b) as [Hin|Hin];
      [by apply elem_of_elements..|done| |].
    + by apply list_elem_of_fmap_2.
    + rewrite merge_pair_comm. by apply list_elem_of_fmap_2.
  - intros ([a b] & -> & Hab)%list_elem_of_fmap. exists a, b.
    apply combinations2_elem_of in Hab as (Ha & Hb & Hab);
      [|apply NoDup_elements].
    by rewrite !elem_of_elements in Ha, Hb.
Qed.

Lemma merge_pair_partition_of (os : list outcome) (p : partition)
    (a b : block) :
  partition_of os p → a ∈ p → b ∈ p → a ≠ b →
  partition_of os (merge_pair p (a, b)).
Proof.
  intros (Hdisj & Hcov & Hin) Ha Hb Hab. split; [|split].
  - by apply merge_pair_disjoint_blocks.
  - by apply merge_pair_covers.
  - intros c o. rewrite merge_pair_eq.
    intros [[Hc _]%elem_of_difference| ->%elem_of_singleton]%elem_of_union Ho.
    + by apply (Hin c).
    + apply elem_of_union in Ho as [Ho|Ho]; [by apply (Hin a)|by apply (Hin b)].
Qed.

(** X4. A partition of the outcomes with k blocks has k (k - 1) / 2
    successors in lines 151 to 153, no two of them equal; each is again a
    partition of the same outcomes, with k - 1 blocks. *)
Theorem successors_are_partitions (os : list outcome) (p : partition) :
  partition_of os p →
  2 * length (merge_pair p <$> combinations2 (elements p))
  = size p * (size p - 1)
  ∧ NoDup (merge_pair p <$> combinations2 (elements p))
  ∧ Forall (λ q, partition_of os q ∧ S (size q) = size p)
           (merge_pair p <$> combinations2 (elements p)).
Proof.
  intros Hp. split; [|split].
  - rewrite length_fmap, combinations2_length, choose2_double. done.
  - apply successors_NoDup, Hp.
  - apply Forall_forall. intros q (a & b & Ha & Hb & Hab & ->)%successor_elem_of.
    split; [by apply merge_pair_partition_of|].
    apply merge_pair_size; [apply Hp|done..].
Qed.

(** A partition of the outcomes, given to [add_partition] block by block,
    covers each outcome exactly once. *)
Lemma partition_covers_once (os : list outcome) (p : partition) :
  disjoint_blocks p → covers os p → covers_once os (blocks_of p).
Proof.
  intros [_ Hdisj] Hcov o Ho. destruct (Hcov o Ho) as (b & Hb & Hob).
  pose proof Hb as Hb'.
  apply elem_of_elements, list_elem_of_lookup in Hb' as [i Hi].
  exists i. split.
  - exists (elements b). unfold blocks_of. rewrite list_lookup_fmap, Hi.
    split; [done|]. by apply elem_of_elements.
  - intros j (es & Hes & Hin). unfold blocks_of in Hes.
    rewrite list_lookup_fmap in Hes.
    destruct (elements p !! j) as [b'|] eqn:Hj; [|done].
    apply (inj Some) in Hes as <-. apply elem_of_elements in Hin.
    assert (b' ∈ p) as Hb'. { apply elem_of_elements, list_elem_of_lookup. eauto. }
    destruct (decide (b' = b)) as [->|Hne].
    + by apply (NoDup_lookup (elements p) j i b (NoDup_elements p)).
    + specialize (Hdisj b' b Hb' Hb Hne). exfalso.
      by apply (Hdisj o).
Qed.


(** ** What the loop takes from the queue *)

Section run_facts.
Context {prim : Primitives}.
Variable dist : Distribution float.
Variables H B : Distribution float → float.
Variable optimal_b : float.

Local Abbreviation loop_body := (loop_body dist H B optimal_b).
Local Abbreviation while_queue := (while_queue dist H B optimal_b).

(** A property that the turns after which the loop goes on keep holds when
    the loop is left through the empty queue. *)
Lemma while_queue_preserves_empty (I : state → Prop) :
  (∀ s s', I s → loop_body s = Next s' → I s') →
  ∀ n s s', I s → while_queue n s = Return (QueueEmpty, s') → I s'.
Proof.
  intros Hstep. induction n as [|n IH]; intros s s' Hs; simpl; [done|].
  destruct (loop_body s) as [e1 s1|s1|] eqn:Hbody.
  - intros [= -> <-]. unfold loop_body in Hbody.
    destruct (queue s) as [|part rest]; [by injection Hbody as <-|].
    destruct (add_partition dist (blocks_of part)) as [d|]; [|done].
    destruct (close (B d) zero); [|done].
    by destruct (close (H d) optimal_b).
  - apply IH. by eapply Hstep.
  - done.
Qed.

Lemma feasible_iff (p : partition) (d : Distribution float) :
  add_partition dist (blocks_of p) = Some d →
  feasible dist B p ↔ close (B d) zero = true.
Proof.
  intros Hd. split; [|by exists d].
  intros (d' & Hd' & Hclose). congruence.
Qed.

(** The queue and the partitions taken from it hold partitions of the
    outcomes only. *)
Lemma partitions_preserved (s : state) :
  Forall (partition_of (outcomes dist)) (queue s)
  ∧ Forall (partition_of (outcomes dist)) (popped s) →
  match loop_body s with
  | Stop _ s' | Next s' =>
      Forall (partition_of (outcomes dist)) (queue s')
      ∧ Forall (partition_of (outcomes dist)) (popped s')
  | Raises => True
  end.
Proof.
  intros [Hqueue Hpopped]. destruct (queue s) as [|part rest] eqn:Hq.
  { by rewrite loop_body_nil, Hq. }
  apply Forall_cons in Hqueue as [Hpart Hrest].
  assert (Forall (partition_of (outcomes dist)) (popped s ++ [part]))
    by (apply Forall_app; split; [done|by constructor]).
  destruct (add_partition dist (blocks_of part)) as [d|] eqn:Hd.
  - rewrite (loop_body_cons dist H B optimal_b s part rest d Hq Hd).
    destruct (close (B d) zero); [destruct (close (H d) optimal_b)|];
      simpl; try done.
    split; [|done]. rewrite extendleft_rev. apply Forall_app. split; [|done].
    apply Forall_reverse, Forall_forall. intros q Hq'.
    apply new_parts_elem_of in Hq' as (_ & a & b & Ha & Hb & Hab & ->).
    by apply merge_pair_partition_of.
  - unfold loop_body. by rewrite Hq, Hd.
Qed.

(** The first partition of what was taken from the queue followed by what is
    in the queue does not change. *)
Lemma head_preserved (p0 : partition) (s : state) :
  head (popped s ++ queue s) = Some p0 →
  match loop_body s with
  | Stop _ s' | Next s' => head (popped s' ++ queue s') = Some p0
  | Raises => True
  end.
Proof.
  intros Hhead. destruct (queue s) as [|part rest] eqn:Hq.
  { by rewrite loop_body_nil, Hq. }
  assert (∀ l, head ((popped s ++ [part]) ++ l) = Some p0) as Hnew.
  { intros l. destruct (popped s); simpl in *; done. }
  destruct (add_partition dist (blocks_of part)) as [d|] eqn:Hd.
  - rewrite (loop_body_cons dist H B optimal_b s part rest d Hq Hd).
    destruct (close (B d) zero); [destruct (close (H d) optimal_b)|];
      simpl; apply Hnew.
  - unfold loop_body. by rewrite Hq, Hd.
Qed.

Lemma provenance_pop (p0 : partition) (s : state) (part : partition)
    (rest new : list partition) (c : gset partition)
    (opt : float * Distribution float) :
  provenance dist B p0 s → queue s = part :: rest →
  (∀ q, q ∈ new → feasible dist B part ∧ successor part q) →
  provenance dist B p0 {| queue := new ++ rest; checked := c; optimal := opt;
                          popped := popped s ++ [part] |}.
Proof.
  intros [Hqueue Hpopped] Hq Hnew. rewrite Hq in Hqueue. split; simpl.
  - intros q [Hin|Hin]%elem_of_app.
    + right. exists part. split; [|by apply Hnew].
      apply elem_of_app. right. by apply list_elem_of_singleton.
    + destruct (Hqueue q) as [->|(p & Hp & Hfeas & Hsucc)];
        [by right|by left|].
      right. exists p. split; [|done]. apply elem_of_app. by left.
  - intros j q Hj. apply lookup_snoc_Some in Hj as [[Hlt Hj]|[-> <-]].
    + destruct (Hpopped j q Hj) as [->|(i & p & Hi & Hp & Hrest)]; [by left|].
      right. exists i, p. split; [done|]. split; [|done].
      by apply lookup_app_l_Some.
    + destruct (Hqueue part) as [->|(p & Hp & Hrest)]; [by left|by left|].
      right. apply list_elem_of_lookup in Hp as [i Hi]. exists i, p.
      split; [by eapply lookup_lt_Some|]. split; [|done].
      by apply lookup_app_l_Some.
Qed.

Lemma provenance_preserved (p0 : partition) (s : state) :
  provenance dist B p0 s →
  match loop_body s with
  | Stop _ s' | Next s' => provenance dist B p0 s'
  | Raises => True
  end.
Proof.
  intros Hs. destruct (queue s) as [|part rest] eqn:Hq.
  { by rewrite loop_body_nil. }
  destruct (add_partition dist (blocks_of part)) as [d|] eqn:Hd.
  - rewrite (loop_body_cons dist H B optimal_b s part rest d Hq Hd).
    destruct (close (B d) zero) eqn:HB; [destruct (close (H d) optimal_b)|];
      simpl.
    + apply (provenance_pop p0 s part rest []); [done..|].
      by intros q ?%elem_of_nil.
    + rewrite extendleft_rev. apply provenance_pop; [done..|].
      intros q Hq'. rewrite elem_of_reverse in Hq'.
      apply new_parts_elem_of in Hq' as [_ Hsucc].
      split; [by exists d|done].
    + apply (provenance_pop p0 s part rest []); [done..|].
      by intros q ?%elem_of_nil.
  - unfold loop_body. by rewrite Hq, Hd.
Qed.

(** A turn after which the loop goes on keeps [expanded]. *)
Lemma expanded_preserved (s s' : state) :
  search_invariant s ∧ expanded dist B s →
  loop_body s = Next s' →
  search_invariant s' ∧ expanded dist B s'.
Proof.
  intros [Hinv Hexp] Hbody.
  pose proof (invariant_preserved dist H B optimal_b s Hinv) as Hinv'.
  rewrite Hbody in Hinv'. split; [done|].
  destruct (queue s) as [|part rest] eqn:Hq.
  { by rewrite loop_body_nil in Hbody. }
  assert (∀ p q, p ∈ popped s → feasible dist B p → successor p q →
                 q ∈ popped s ++ [part] ∨ q ∈ rest) as Hold.
  { intros p q Hp Hfeas Hsucc.
    destruct (Hexp p q Hp Hfeas Hsucc) as [Hin|Hin].
    - left. apply elem_of_app. by left.
    - rewrite Hq in Hin. apply elem_of_cons in Hin as [->|Hin]; [|by right].
      left. apply elem_of_app. right. by apply list_elem_of_singleton. }
  destruct (add_partition dist (blocks_of part)) as [d|] eqn:Hd.
  - rewrite (loop_body_cons dist H B optimal_b s part rest d Hq Hd) in Hbody.
    destruct (close (B d) zero) eqn:HB; [destruct (close (H d) optimal_b)|];
      [done| |]; injection Hbody as <-; intros p q; simpl.
    + intros [Hp| ->%list_elem_of_singleton]%elem_of_app Hfeas Hsucc.
      * destruct (Hold p q Hp Hfeas Hsucc) as [Hin|Hin]; [by left|].
        right. rewrite extendleft_rev. apply elem_of_app. by right.
      * destruct (decide (q ∈ {[part]} ∪ checked s)) as [Hin|Hin].
        -- left. apply elem_of_app.
           apply elem_of_union in Hin as [->%elem_of_singleton|Hin].
           ++ right. by apply list_elem_of_singleton.
           ++ left. by apply (inv_popped_checked s Hinv).
        -- right. rewrite extendleft_rev. apply elem_of_app. left.
           apply elem_of_reverse. rewrite new_parts_Permutation.
           apply list_elem_of_filter. split; [done|].
           by apply successor_elem_of.
    + intros [Hp| ->%list_elem_of_singleton]%elem_of_app Hfeas Hsucc.
      * by apply (Hold p q).
      * apply (feasible_iff part d Hd) in Hfeas. congruence.
  - unfold loop_body in Hbody.
    by rewrite Hq, Hd in Hbody.
Qed.
End run_facts.

(** ** The best candidate *)

Section better_facts.
Context {prim : Primitives}.
Variable dist : Distribution float.
Variables H B : Distribution float → float.
Implicit Types (opt : float * Distribution float) (l : list partition).

(** The best candidate is the first one or was made of a partition of the
    list that passed the test. *)
Lemma foldl_better_from opt l :
  foldl (better dist H B) opt l = opt
  ∨ ∃ p d, p ∈ l ∧ add_partition dist (blocks_of p) = Some d
           ∧ close (B d) zero = true
           ∧ foldl (better dist H B) opt l = (H d, d).
Proof.
  revert opt. induction l as [|p l IH]; intros opt; simpl; [by left|].
  destruct (IH (better dist H B opt p)) as [->|(q & d & Hq & Hd & HB & ->)].
  - unfold better.
    destruct (add_partition dist (blocks_of p)) as [d|] eqn:Hd; [|by left].
    destruct (close (B d) zero) eqn:HB; [|by left].
    destruct (leb (H d) opt.1); [|by left].
    right. exists p, d. split; [by left|done].
  - right. exists q, d. split; [by right|done].
Qed.

(** With a total [<=], the entropy of the best candidate is not above the
    entropy of the first one, nor above the one of any partition of the list
    that passed the test. *)
Lemma foldl_better_least opt l :
  total_preorder leb →
  leb (foldl (better dist H B) opt l).1 opt.1 = true
  ∧ ∀ p d, p ∈ l → add_partition dist (blocks_of p) = Some d →
           close (B d) zero = true →
           leb (foldl (better dist H B) opt l).1 (H d) = true.
Proof.
  intros [Htotal Htrans].
  assert (∀ x, leb x x = true) as Hrefl by (intros x; by destruct (Htotal x x)).
  revert opt. induction l as [|p l IH]; intros opt; simpl.
  { split; [done|]. by intros p d ?%elem_of_nil. }
  destruct (IH (better dist H B opt p)) as [Hfirst Hrest].
  assert (leb (better dist H B opt p).1 opt.1 = true) as Hstep.
  { unfold better. destruct (add_partition dist (blocks_of p)) as [d|]; [|done].
    destruct (close (B d) zero); [|done].
    by destruct (leb (H d) opt.1) eqn:Hle. }
  split; [by eapply Htrans|].
  intros q d [->|Hq]%elem_of_cons Hd HB; [|by eapply Hrest].
  eapply Htrans; [exact Hfirst|]. unfold better. rewrite Hd, HB.
  destruct (leb (H d) opt.1) eqn:Hle; [done|]. simpl.
  by destruct (Htotal opt.1 (H d)) as [?|Hge]; [|rewrite Hge in Hle].
Qed.
End better_facts.

(** ** The run of the search *)

Section run_of_search.
Context {prim : Primitives}.
Implicit Types (dist initial d : Distribution float).
Implicit Types (rvs : option (list (list rv))) (crvs : option (list rv)).
Implicit Types (rv_mode : option RV_MODES) (s : state).

Lemma finest_partition_of dist : partition_of (outcomes dist) (finest dist).
Proof.
  split; [apply finest_disjoint_blocks|]. split; [apply finest_covers|].
  intros b o (o' & -> & Ho')%finest_elem_of ->%elem_of_singleton. done.
Qed.

(** What holds when the loop of [functional_markov_chain] is left. *)
Lemma search_run dist rvs crvs rv_mode (k : nat) :
  ∃ initial e s,
    add_partition dist (blocks_of (finest dist)) = Some initial
    ∧ search (search_fuel dist + k) dist rvs crvs rv_mode = Return (e, s)
    ∧ Forall (partition_of (outcomes dist)) (popped s)
    ∧ popped s !! 0 = Some (finest dist)
    ∧ search_invariant s
    ∧ provenance dist (search_B dist rvs crvs rv_mode) (finest dist) s
    ∧ optimal s
      = foldl (better dist (search_H dist rvs crvs rv_mode)
                 (search_B dist rvs crvs rv_mode))
          (search_H dist rvs crvs rv_mode initial, initial) (popped s)
    ∧ (e = QueueEmpty →
       queue s = [] ∧ expanded dist (search_B dist rvs crvs rv_mode) s).
Proof.
  destruct (search_returns dist rvs crvs rv_mode k)
    as (initial & e & s & Hinitial & Hrun & Hsearch).
  exists initial, e, s. split; [done|]. split; [done|].
  pose proof (while_queue_exit _ _ _ _ _ _ _ _ Hrun) as Hexit.
  assert (head (popped s ++ queue s) = Some (finest dist)) as Hhead.
  { by eapply (while_queue_preserves _ _ _ _
                 (λ s, head (popped s ++ queue s) = Some (finest dist)));
      [apply head_preserved| |exact Hrun]. }
  split; [|split; [|split; [|split; [|split]]]].
  - eapply (while_queue_preserves _ _ _ _
              (λ s, Forall (partition_of (outcomes dist)) (queue s)
                    ∧ Forall (partition_of (outcomes dist)) (popped s)));
      [apply partitions_preserved| |exact Hrun].
    simpl. split; [|constructor].
    constructor; [apply finest_partition_of|constructor].
  - destruct e.
    + rewrite Hexit, app_nil_r in Hhead. by destruct (popped s).
    + destruct Hexit as (part & d & Hlast & _).
      destruct (popped s); [done|]. done.
  - eapply (while_queue_preserves _ _ _ _ search_invariant);
      [apply invariant_preserved|apply search_entry_invariant|exact Hrun].
  - eapply (while_queue_preserves _ _ _ _
              (provenance dist (search_B dist rvs crvs rv_mode) (finest dist)));
      [apply provenance_preserved| |exact Hrun].
    split; simpl.
    + intros q ->%list_elem_of_singleton. by left.
    + intros j q Hj. by rewrite lookup_nil in Hj.
  - eapply (while_queue_preserves _ _ _ _
              (λ s, optimal s = foldl _ _ (popped s)));
      [apply optimal_preserved| |exact Hrun].
    done.
  - intros ->. split; [done|].
    eapply (while_queue_preserves_empty _ _ _ _
              (λ s, search_invariant s
                    ∧ expanded dist (search_B dist rvs crvs rv_mode) s));
      [apply expanded_preserved| |exact Hrun].
    split; [apply search_entry_invariant|].
    intros p q Hp. by apply elem_of_nil in Hp.
Qed.
End run_of_search.

Section search_more.
Context {prim : Primitives}.
Implicit Types (dist initial d : Distribution float).
Implicit Types (rvs : option (list (list rv))) (crvs : option (list rv)).
Implicit Types (rv_mode : option RV_MODES) (s : state).

(** X5. Every partition that [functional_markov_chain] takes from the queue
    and gives to [add_partition] is a partition of the outcomes of the
    distribution, and its blocks cover each outcome exactly once: the search
    keeps the precondition of [add_partition]. *)
Theorem search_evaluates_partitions dist rvs crvs rv_mode (k : nat) :
  ∃ e s,
    search (search_fuel dist + k) dist rvs crvs rv_mode = Return (e, s)
    ∧ Forall (λ p, partition_of (outcomes dist) p
                   ∧ covers_once (outcomes dist) (blocks_of p)) (popped s).
Proof.
  destruct (search_run dist rvs crvs rv_mode k)
    as (initial & e & s & _ & Hsearch & Hparts & _).
  exists e, s. split; [done|].
  eapply Forall_impl; [exact Hparts|]. intros p Hp. split; [done|].
  destruct Hp as (Hdisj & Hcov & _). by apply partition_covers_once.
Qed.

(** X6. The first partition taken from the queue is the finest one, and every
    later one is a successor (two blocks merged) of a partition that was
    taken from the queue before it and passed the test of line 141. *)
Theorem popped_from_feasible_parent dist rvs crvs rv_mode (k : nat) :
  ∃ e s,
    search (search_fuel dist + k) dist rvs crvs rv_mode = Return (e, s)
    ∧ popped s !! 0 = Some (finest dist)
    ∧ ∀ j q, popped s !! S j = Some q →
        ∃ i p, i ≤ j ∧ popped s !! i = Some p
               ∧ feasible dist (search_B dist rvs crvs rv_mode) p
               ∧ successor p q.
Proof.
  destruct (search_run dist rvs crvs rv_mode k)
    as (initial & e & s & _ & Hsearch & _ & Hhead & Hinv & [_ Hprov] & _).
  exists e, s. split; [done|]. split; [done|]. intros j q Hj.
  destruct (Hprov (S j) q Hj) as [->|(i & p & Hi & Hrest)].
  - pose proof (NoDup_lookup _ _ _ _ (inv_popped_nodup s Hinv) Hj Hhead).
    done.
  - exists i, p. split; [lia|done].
Qed.

Lemma popped_reachable dist (B : Distribution float → float) s :
  provenance dist B (finest dist) s →
  ∀ p, p ∈ popped s → reachable dist B p.
Proof.
  intros [_ Hprov] p [j Hj]%list_elem_of_lookup. revert p Hj.
  induction j as [j IH] using lt_wf_ind. intros p Hj.
  destruct (Hprov j p Hj) as [->|(i & q & Hi & Hq & Hfeas & Hsucc)].
  - constructor.
  - eapply reachable_merge; [|done..]. by eapply IH.
Qed.

(** X7. The partitions taken from the queue are reachable from the finest
    partition by merges made in partitions that pass the test; when the loop
    is left because the queue is empty, they are all of these partitions. *)
Theorem popped_is_reachable dist rvs crvs rv_mode (k : nat) :
  ∃ e s,
    search (search_fuel dist + k) dist rvs crvs rv_mode = Return (e, s)
    ∧ (∀ p, p ∈ popped s →
            reachable dist (search_B dist rvs crvs rv_mode) p)
    ∧ (e = QueueEmpty →
       ∀ p, reachable dist (search_B dist rvs crvs rv_mode) p →
            p ∈ popped s).
Proof.
  destruct (search_run dist rvs crvs rv_mode k)
    as (initial & e & s & _ & Hsearch & _ & Hhead & _ & Hprov & _ & Hempty).
  exists e, s. split; [done|]. split; [by apply popped_reachable|].
  intros He p Hp. destruct (Hempty He) as [Hq Hexp].
  induction Hp as [|p q _ IH Hfeas Hsucc].
  - apply list_elem_of_lookup. eauto.
  - destruct (Hexp p q IH Hfeas Hsucc) as [Hin|Hin]; [done|].
    rewrite Hq in Hin. by apply elem_of_nil in Hin.
Qed.

(** The best candidate when the loop is left: its entropy is the stored one,
    and it was made of a partition taken from the queue. *)
Lemma optimal_of_popped dist rvs crvs rv_mode (k : nat) :
  ∃ e s p,
    search (search_fuel dist + k) dist rvs crvs rv_mode = Return (e, s)
    ∧ p ∈ popped s ∧ partition_of (outcomes dist) p
    ∧ add_partition dist (blocks_of p) = Some (optimal s).2
    ∧ (optimal s).1 = search_H dist rvs crvs rv_mode (optimal s).2.
Proof.
  destruct (search_run dist rvs crvs rv_mode k)
    as (initial & e & s & Hinitial & Hsearch & Hparts & Hhead & _ & _ & Hopt & _).
  rewrite Forall_forall in Hparts.
  destruct (foldl_better_from dist (search_H dist rvs crvs rv_mode)
              (search_B dist rvs crvs rv_mode)
              (search_H dist rvs crvs rv_mode initial, initial) (popped s))
    as [Heq|(p & d & Hp & Hd & _ & Heq)]; rewrite <-Hopt in Heq.
  - exists e, s, (finest dist).
    assert (finest dist ∈ popped s) by (apply list_elem_of_lookup; eauto).
    rewrite Heq. simpl. split; [done|]. split; [done|].
    split; [by apply Hparts|done].
  - exists e, s, p. rewrite Heq. simpl. split; [done|]. split; [done|].
    split; [by apply Hparts|done].
Qed.

(** X8. [functional_markov_chain] returns the distribution it was given with
    one more symbol at the end of each outcome and the same masses; the
    symbol is the block label of a partition of the outcomes that the search
    took from its queue. *)
Theorem returned_is_labelled_dist dist rvs crvs rv_mode (k : nat) :
  ∃ d p,
    functional_markov_chain (search_fuel dist + k) dist rvs crvs rv_mode
    = Return d
    ∧ partition_of (outcomes dist) p
    ∧ d = {| outcomes := (λ o, o ++ [label (blocks_of p) o]) <$> outcomes dist;
             pmf := pmf dist |}.
Proof.
  destruct (optimal_of_popped dist rvs crvs rv_mode k)
    as (e & s & p & Hsearch & _ & Hp & Hd & _).
  exists (optimal s).2, p. unfold functional_markov_chain. rewrite Hsearch.
  split; [done|]. split; [done|].
  by apply add_partition_Some_inv in Hd as [_ ?].
Qed.

Lemma optimal_least dist rvs crvs rv_mode (k : nat) :
  total_preorder leb →
  ∃ e s,
    search (search_fuel dist + k) dist rvs crvs rv_mode = Return (e, s)
    ∧ (∀ p d, p ∈ popped s → add_partition dist (blocks_of p) = Some d →
              close (search_B dist rvs crvs rv_mode d) zero = true →
              leb (search_H dist rvs crvs rv_mode (optimal s).2)
                  (search_H dist rvs crvs rv_mode d) = true)
    ∧ (e = QueueEmpty →
       ∀ p, reachable dist (search_B dist rvs crvs rv_mode) p →
            p ∈ popped s).
Proof.
  intros Horder.
  destruct (search_run dist rvs crvs rv_mode k)
    as (initial & e & s & Hinitial & Hsearch & _ & Hhead & _ & _ & Hopt & Hempty).
  exists e, s. split; [done|].
  destruct (foldl_better_least dist (search_H dist rvs crvs rv_mode)
              (search_B dist rvs crvs rv_mode)
              (search_H dist rvs crvs rv_mode initial, initial) (popped s)
              Horder) as [_ Hleast].
  rewrite <-Hopt in Hleast.
  assert ((optimal s).1 = search_H dist rvs crvs rv_mode (optimal s).2) as Hfst.
  { destruct (foldl_better_from dist (search_H dist rvs crvs rv_mode)
                (search_B dist rvs crvs rv_mode)
                (search_H dist rvs crvs rv_mode initial, initial) (popped s))
      as [Heq|(p & d & _ & _ & _ & Heq)]; rewrite <-Hopt in Heq;
      by rewrite Heq. }
  rewrite Hfst in Hleast. split; [done|].
  intros He p Hp. destruct (Hempty He) as [Hq Hexp].
  induction Hp as [|p q _ IH Hfeas Hsucc].
  - apply list_elem_of_lookup. eauto.
  - destruct (Hexp p q IH Hfeas Hsucc) as [Hin|Hin]; [done|].
    rewrite Hq in Hin. by apply elem_of_nil in Hin.
Qed.

(** X9. When [<=] on floats is total and transitive, the added variable of
    the distribution that [functional_markov_chain] returns has no more
    entropy than the one of any partition that was taken from the queue and
    passed the test of line 141. *)
Theorem returned_least_of_popped dist rvs crvs rv_mode (k : nat) :
  total_preorder leb →
  ∃ e s d,
    search (search_fuel dist + k) dist rvs crvs rv_mode = Return (e, s)
    ∧ functional_markov_chain (search_fuel dist + k) dist rvs crvs rv_mode
      = Return d
    ∧ ∀ p d', p ∈ popped s → add_partition dist (blocks_of p) = Some d' →
              close (search_B dist rvs crvs rv_mode d') zero = true →
              leb (search_H dist rvs crvs rv_mode d)
                  (search_H dist rvs crvs rv_mode d') = true.
Proof.
  intros Horder.
  destruct (optimal_least dist rvs crvs rv_mode k Horder)
    as (e & s & Hsearch & Hleast & _).
  exists e, s, (optimal s).2. split; [done|].
  unfold functional_markov_chain. by rewrite Hsearch.
Qed.

(** X10. When [<=] on floats is total and transitive and the loop is left
    because the queue is empty, the returned distribution has the least
    entropy among all partitions that pass the test and can be reached from
    the finest partition by merges made in partitions that pass the test. *)
Theorem exhausted_search_least_of_reachable dist rvs crvs rv_mode (k : nat) :
  total_preorder leb →
  ∃ e s d,
    search (search_fuel dist + k) dist rvs crvs rv_mode = Return (e, s)
    ∧ functional_markov_chain (search_fuel dist + k) dist rvs crvs rv_mode
      = Return d
    ∧ (e = QueueEmpty →
       ∀ p d', reachable dist (search_B dist rvs crvs rv_mode) p →
               add_partition dist (blocks_of p) = Some d' →
               close (search_B dist rvs crvs rv_mode d') zero = true →
               leb (search_H dist rvs crvs rv_mode d)
                   (search_H dist rvs crvs rv_mode d') = true).
Proof.
  intros Horder.
  destruct (optimal_least dist rvs crvs rv_mode k Horder)
    as (e & s & Hsearch & Hleast & Hall).
  exists e, s, (optimal s).2. split; [done|]. split.
  { unfold functional_markov_chain. by rewrite Hsearch. }
  intros He p d' Hp. apply Hleast. by apply Hall.
Qed.

(** X11. On a distribution with at most one outcome the search takes the
    finest partition from the queue and nothing else, and returns the
    candidate of line 128. *)
Theorem single_outcome_search dist rvs crvs rv_mode (k : nat) :
  size (finest dist) ≤ 1 →
  ∃ e s initial,
    search (search_fuel dist + k) dist rvs crvs rv_mode = Return (e, s)
    ∧ popped s = [finest dist]
    ∧ add_partition dist (blocks_of (finest dist)) = Some initial
    ∧ functional_markov_chain (search_fuel dist + k) dist rvs crvs rv_mode
      = Return initial.
Proof.
  intros Hsize.
  destruct (search_run dist rvs crvs rv_mode k)
    as (initial & e & s & Hinitial & Hsearch & _ & Hhead & Hinv & [_ Hprov]
        & Hopt & _).
  assert (∀ j p, popped s !! j = Some p → j = 0) as Hzero.
  { induction j as [j IH] using lt_wf_ind. intros p Hj.
    destruct j as [|j]; [done|]. exfalso.
    destruct (Hprov (S j) p Hj) as [->|(i & q & Hi & Hq & _ & Hsucc)].
    - by pose proof (NoDup_lookup _ _ _ _ (inv_popped_nodup s Hinv) Hj Hhead).
    - pose proof (IH i Hi q Hq) as ->. rewrite Hhead in Hq.
      apply (inj Some) in Hq as <-.
      destruct Hsucc as (a & b & Ha & Hb & Hab & _).
      pose proof (pair_size _ a b Ha Hb Hab). lia. }
  assert (popped s = [finest dist]) as Hpopped.
  { destruct (popped s) as [|p0 [|p1 l]]; [done| |].
    - by injection Hhead as ->.
    - by specialize (Hzero 1 p1 eq_refl). }
  exists e, s, initial. split; [done|]. split; [done|]. split; [done|].
  unfold functional_markov_chain. rewrite Hsearch, Hopt, Hpopped. simpl.
  unfold better. rewrite Hinitial. simpl.
  destruct (close _ _); [|done]. by destruct (leb _ _).
Qed.

(** X12. When [normalize_rvs] returns the rv_mode None, the value of
    [functional_common_information] is the entropy that the search has stored
    with its best candidate. *)
Theorem functional_common_information_stored dist rvs crvs rv_mode (k : nat) :
  (normalize_rvs dist rvs crvs rv_mode).2 = None →
  ∃ e s,
    search (search_fuel dist + k) dist rvs crvs rv_mode = Return (e, s)
    ∧ functional_common_information (search_fuel dist + k) dist rvs crvs
        rv_mode = Return (optimal s).1.
Proof.
  intros Hmode.
  destruct (optimal_of_popped dist rvs crvs rv_mode k)
    as (e & s & p & Hsearch & _ & _ & _ & Hfst).
  exists e, s. split; [done|].
  unfold functional_common_information, functional_markov_chain.
  rewrite Hsearch, Hfst. unfold search_H. by rewrite Hmode.
Qed.
End search_more.


(** ** The brute force *)

Section naive_facts.
Context {prim : Primitives}.
Implicit Types (dist d : Distribution float).
Implicit Types (rvs : option (list (list rv))) (crvs : option (list rv)).
Implicit Types (rv_mode : option RV_MODES).

Lemma min_by_foldl {A} (key : A → float) (l : list A) (x : A) :
  foldl (λ best y, if ltb (key y) (key best) then y else best) x l ∈ x :: l.
Proof.
  revert x. induction l as [|y l IH]; intros x; simpl; [by left|].
  destruct (ltb (key y) (key x)).
  - right. apply IH.
  - specialize (IH x). apply elem_of_cons in IH as [->|Hin]; [by left|].
    by do 2 right.
Qed.

Lemma min_by_foldl_least {A} (key : A → float) (l : list A) (x : A) :
  strict_order ltb →
  ltb (key x)
      (key (foldl (λ best y, if ltb (key y) (key best) then y else best) x l))
  = false
  ∧ ∀ y, y ∈ l →
      ltb (key y)
          (key (foldl (λ best y, if ltb (key y) (key best) then y else best)
                      x l))
      = false.
Proof.
  intros (Hirr & Htrans & Hneg). revert x.
  induction l as [|y l IH]; intros x; simpl.
  { split; [done|]. by intros y ?%elem_of_nil. }
  destruct (ltb (key y) (key x)) eqn:Hyx.
  - destruct (IH y) as [Hy Hl].
    split; [|by intros z [->|?]%elem_of_cons; auto].
    destruct (ltb (key x) (key _)) eqn:Hxm; [|done].
    by rewrite (Htrans _ _ _ Hyx Hxm) in Hy.
  - destruct (IH x) as [Hx Hl]. split; [done|].
    intros z [->|?]%elem_of_cons; [|by auto].
    destruct (ltb (key y) (key (foldl _ x l))) eqn:Hym; [|done].
    destruct (Hneg _ (key x) _ Hym) as [Hlt|Hlt]; congruence.
Qed.

Lemma min_by_Return {A} (key : A → float) (l : list A) (x : A) :
  min_by key l = Return x → x ∈ l.
Proof.
  destruct l as [|y l]; [done|]. intros [= <-]. apply min_by_foldl.
Qed.

Lemma min_by_least {A} (key : A → float) (l : list A) (x : A) :
  strict_order ltb → min_by key l = Return x →
  ∀ y, y ∈ l → ltb (key y) (key x) = false.
Proof.
  intros Horder. destruct l as [|z l]; [done|]. intros [= <-].
  destruct (min_by_foldl_least key l z Horder) as [Hz Hl].
  by intros y [->|Hy]%elem_of_cons; auto.
Qed.

(** Every outcome is in a block of each partition that [partitions] lists. *)
Lemma add_to_each_covers (o o' : outcome) (p q : list (list outcome)) :
  q ∈ add_to_each o p →
  (∃ i, in_block q i o)
  ∧ ((∃ i, in_block p i o') → ∃ i, in_block q i o').
Proof.
  revert q. induction p as [|b p IH]; intros q; simpl;
    [by intros ?%elem_of_nil|].
  intros [->|(q' & -> & Hq')%list_elem_of_fmap]%elem_of_cons.
  - split.
    + exists 0, (o :: b). split; [done|]. by left.
    + intros [[|i] (es & Hes & Hin)].
      * injection Hes as <-. exists 0, (o :: b). split; [done|]. by right.
      * exists (S i), es. done.
  - destruct (IH q' Hq') as [[i (es & Hes & Hin)] Hrest]. split.
    + exists (S i), es. done.
    + intros [[|i'] (es' & Hes' & Hin')].
      * exists 0, es'. done.
      * destruct Hrest as [i'' (es'' & ? & ?)]; [by exists i', es'|].
        exists (S i''), es''. done.
Qed.

Lemma partitions_cover (os : list outcome) (p : list (list outcome)) :
  p ∈ partitions os → ∀ o, o ∈ os → ∃ i, in_block p i o.
Proof.
  revert p. induction os as [|o' os IH]; intros p; simpl;
    [by intros _ o ?%elem_of_nil|].
  intros (q & Hp & Hq)%list_elem_of_bind o Ho.
  apply elem_of_cons in Hp as [->|Hp].
  - apply elem_of_cons in Ho as [->|Ho].
    + exists 0, [o']. split; [done|]. by left.
    + destruct (IH q Hq o Ho) as [i (es & ? & ?)]. exists (S i), es. done.
  - destruct (add_to_each_covers o' o q p Hp) as [Hnew Hold].
    apply elem_of_cons in Ho as [->|Ho]; [done|]. by apply Hold, IH.
Qed.

(** X13. [functional_markov_chain_naive] returns a distribution that passes
    the test of line 74 and that [add_partition] made of a partition of the
    list of [partitions]; it raises (ValueError of [min] on an empty
    sequence) when no partition of the list passes the test. *)
Theorem naive_feasible_or_raises dist rvs crvs rv_mode :
  match functional_markov_chain_naive dist rvs crvs rv_mode with
  | Return d =>
      close (search_B dist rvs crvs rv_mode d) zero = true
      ∧ ∃ part, part ∈ partitions (outcomes dist)
                ∧ add_partition dist part = Some d
  | Raise =>
      ∀ part d, part ∈ partitions (outcomes dist) →
                add_partition dist part = Some d →
                close (search_B dist rvs crvs rv_mode d) zero = false
  | OutOfFuel => False
  end.
Proof.
  unfold functional_markov_chain_naive, search_B.
  destruct (normalize_rvs dist rvs crvs rv_mode) as [[rvs' crvs'] rv_mode'].
  simpl.
  destruct (mapM (add_partition dist) (partitions (outcomes dist)))
    as [dists|] eqn:Hdists.
  - apply mapM_Some in Hdists.
    destruct (min_by _ _) as [d| |] eqn:Hmin.
    + apply min_by_Return in Hmin.
      apply list_elem_of_filter in Hmin as [Hclose Hd]. split; [done|].
      apply list_elem_of_lookup in Hd as [i Hi].
      destruct (Forall2_lookup_r _ _ _ _ _ Hdists Hi) as (part & Hpart & Hadd).
      exists part. split; [|done]. apply list_elem_of_lookup. eauto.
    + intros part d Hpart Hadd.
      apply list_elem_of_lookup in Hpart as [i Hi].
      destruct (Forall2_lookup_l _ _ _ _ _ Hdists Hi) as (d' & Hd' & Hadd').
      assert (d' = d) as -> by congruence.
      destruct (close _ _) eqn:Hclose; [|done].
      assert (d ∈ filter (λ d, close (dual_total_correlation d rvs'
                                        (crvs' ++ [RvIndex (outcome_length dist)])
                                        rv_mode') zero = true) dists) as Hin.
      { apply list_elem_of_filter. split; [done|].
        apply list_elem_of_lookup. eauto. }
      destruct (filter _ dists); [by apply elem_of_nil in Hin|done].
    + by destruct (filter _ dists).
  - exfalso. apply eq_None_not_Some in Hdists. apply Hdists.
    apply mapM_is_Some, Forall_forall. intros part Hpart. simpl.
    rewrite (add_partition_Some dist part); [done|].
    by apply partitions_cover.
Qed.

(** X14. When [<] on floats is a strict order that compares any two, the
    added variable of the distribution that the brute force returns has no
    more entropy than the one of any partition of the list that passes the
    test. *)
Theorem naive_least dist rvs crvs rv_mode d :
  strict_order ltb →
  functional_markov_chain_naive dist rvs crvs rv_mode = Return d →
  ∀ part d', part ∈ partitions (outcomes dist) →
             add_partition dist part = Some d' →
             close (search_B dist rvs crvs rv_mode d') zero = true →
             ltb (search_H dist rvs crvs rv_mode d')
                 (search_H dist rvs crvs rv_mode d) = false.
Proof.
  intros Horder. unfold functional_markov_chain_naive, search_B, search_H.
  destruct (normalize_rvs dist rvs crvs rv_mode) as [[rvs' crvs'] rv_mode'].
  simpl.
  destruct (mapM (add_partition dist) (partitions (outcomes dist)))
    as [dists|] eqn:Hdists; [|done].
  apply mapM_Some in Hdists. intros Hmin part d' Hpart Hadd Hclose.
  apply (min_by_least _ _ _ Horder Hmin).
  apply list_elem_of_filter. split; [done|].
  apply list_elem_of_lookup in Hpart as [i Hi].
  destruct (Forall2_lookup_l _ _ _ _ _ Hdists Hi) as (d'' & Hd'' & Hadd').
  assert (d'' = d') as -> by congruence.
  apply list_elem_of_lookup. eauto.
Qed.
End naive_facts.

(** ** The order of the exact model, and the statements at work *)

Lemma exact_leb_iff (x y : exact.xfloat) :
  leb x y = true ↔ (exact.bits_of x <= exact.bits_of y)%Q.
Proof. apply Qle_bool_iff. Qed.

Lemma exact_ltb_iff (x y : exact.xfloat) :
  ltb x y = true ↔ (exact.bits_of x < exact.bits_of y)%Q.
Proof.
  simpl. rewrite negb_true_iff. split.
  - intros Hle. apply Qnot_le_lt. intros Hyx.
    apply Qle_bool_iff in Hyx. congruence.
  - intros Hlt. destruct (Qle_bool _ _) eqn:Hle; [|done].
    apply Qle_bool_iff in Hle. by apply Qlt_not_le in Hlt.
Qed.

Lemma exact_leb_total_preorder :
  total_preorder (leb (Primitives := exact.primitives)).
Proof.
  split.
  - intros x y. rewrite !exact_leb_iff.
    destruct (Qlt_le_dec (exact.bits_of x) (exact.bits_of y)) as [Hlt|Hle];
      [left; by apply Qlt_le_weak|by right].
  - intros x y z. rewrite !exact_leb_iff. apply Qle_trans.
Qed.

Lemma exact_ltb_strict_order :
  strict_order (ltb (Primitives := exact.primitives)).
Proof.
  split; [|split].
  - intros x. destruct (ltb x x) eqn:Hlt; [|done].
    apply exact_ltb_iff in Hlt. by apply Qlt_irrefl in Hlt.
  - intros x y z. rewrite !exact_ltb_iff. apply Qlt_trans.
  - intros x y z. rewrite !exact_ltb_iff. intros Hxz.
    destruct (Qlt_le_dec (exact.bits_of x) (exact.bits_of y)) as [Hlt|Hle];
      [by left|right]. by eapply Qle_lt_trans.
Qed.



(** The second list of blocks repeats an outcome inside a block and holds an
    element, [5; 5], that is no outcome of the distribution. *)
Lemma add_partition_membership_only_witness :
  add_partition exact.copy_bits [[[0; 0]]; [[1; 1]]]
  = add_partition exact.copy_bits [[[0; 0]; [5; 5]; [0; 0]]; [[1; 1]]].
Proof.
  apply (add_partition_membership_only exact.copy_bits).
  intros o i Ho.
  assert (o = [0; 0] ∨ o = [1; 1]) as [-> | ->] by (simpl in Ho; set_solver);
    destruct i as [|[|i]]; split; intros (es & Hes & Hin);
    simplify_eq/=; try (by apply elem_of_nil in Hin);
    try (eexists; split; [reflexivity|set_solver]); set_solver.
Defined.

Lemma successors_are_partitions_witness :
  let p := finest (prim := exact.primitives) exact.three_outcomes in
  2 * length (merge_pair p <$> combinations2 (elements p))
  = size p * (size p - 1)
  ∧ NoDup (merge_pair p <$> combinations2 (elements p))
  ∧ Forall (λ q, partition_of (outcomes exact.three_outcomes) q
                 ∧ S (size q) = size p)
           (merge_pair p <$> combinations2 (elements p)).
Proof.
  intros p.
  apply (successors_are_partitions (outcomes exact.three_outcomes) p).
  apply (finest_partition_of (prim := exact.primitives)).
Defined.

Lemma returned_least_of_popped_witness :
  ∃ e s d,
    search (search_fuel exact.three_outcomes + 0) exact.three_outcomes
      None None None = Return (e, s)
    ∧ functional_markov_chain (search_fuel exact.three_outcomes + 0)
        exact.three_outcomes None None None = Return d
    ∧ ∀ p d', p ∈ popped s →
              add_partition exact.three_outcomes (blocks_of p) = Some d' →
              close (exact_B exact.three_outcomes d') zero = true →
              leb (exact_H exact.three_outcomes d)
                  (exact_H exact.three_outcomes d') = true.
Proof.
  apply (returned_least_of_popped (prim := exact.primitives)
           exact.three_outcomes None None None 0).
  apply exact_leb_total_preorder.
Defined.

Lemma exhausted_search_least_of_reachable_witness :
  ∃ e s d,
    search (search_fuel exact.three_outcomes + 0) exact.three_outcomes
      None None None = Return (e, s)
    ∧ functional_markov_chain (search_fuel exact.three_outcomes + 0)
        exact.three_outcomes None None None = Return d
    ∧ (e = QueueEmpty →
       ∀ p d', reachable exact.three_outcomes
                 (exact_B exact.three_outcomes) p →
               add_partition exact.three_outcomes (blocks_of p) = Some d' →
               close (exact_B exact.three_outcomes d') zero = true →
               leb (exact_H exact.three_outcomes d)
                   (exact_H exact.three_outcomes d') = true).
Proof.
  apply (exhausted_search_least_of_reachable (prim := exact.primitives)
           exact.three_outcomes None None None 0).
  apply exact_leb_total_preorder.
Defined.

Lemma single_outcome_search_witness :
  ∃ e s initial,
    search (search_fuel exact.certain + 0) exact.certain None None None
    = Return (e, s)
    ∧ popped s = [finest exact.certain]
    ∧ add_partition exact.certain (blocks_of (finest exact.certain))
      = Some initial
    ∧ functional_markov_chain (search_fuel exact.certain + 0) exact.certain
        None None None = Return initial.
Proof.
  apply (single_outcome_search (prim := exact.primitives)
           exact.certain None None None 0).
  apply (bool_decide_unpack _). vm_compute. exact I.
Defined.

Lemma functional_common_information_stored_witness :
  ∃ e s,
    search (search_fuel exact.copy_bits + 0) exact.copy_bits None None None
    = Return (e, s)
    ∧ functional_common_information (search_fuel exact.copy_bits + 0)
        exact.copy_bits None None None = Return (optimal s).1.
Proof.
  apply (functional_common_information_stored (prim := exact.primitives)
           exact.copy_bits None None None 0).
  reflexivity.
Defined.

(** Three equally likely outcomes 00, 01, 11: the brute force returns the
    partition {00, 01}, {11}; the finest partition passes the test and has
    not less entropy. *)
Lemma naive_least_witness :
  ltb (exact_H exact.three_outcomes
         {| outcomes := [[0; 0; 0]; [0; 1; 1]; [1; 1; 2]];
            pmf := pmf exact.three_outcomes |})
      (exact_H exact.three_outcomes
         {| outcomes := [[0; 0; 0]; [0; 1; 0]; [1; 1; 1]];
            pmf := pmf exact.three_outcomes |}) = false.
Proof.
  apply (naive_least (prim := exact.primitives) exact.three_outcomes
           None None None _ exact_ltb_strict_order eq_refl
           [[[0; 0]]; [[0; 1]]; [[1; 1]]]).
  - apply (bool_decide_unpack _). vm_compute. exact I.
  - vm_compute. reflexivity.
  - vm_compute. reflexivity.
Defined.

(** ** The candidate of line 128 *)

Section initial_candidate.
Context {prim : Primitives}.
Implicit Types (dist initial d : Distribution float).
Implicit Types (rvs : option (list (list rv))) (crvs : option (list rv)).
Implicit Types (rv_mode : option RV_MODES) (o : outcome).

Lemma finest_block_lookup dist (i : nat) o :
  in_block (blocks_of (finest dist)) i o →
  elements (finest dist) !! i = Some {[o]}.
Proof.
  unfold in_block, blocks_of. intros (es & Hes & Hin).
  rewrite list_lookup_fmap in Hes.
  destruct (elements (finest dist) !! i) as [b|] eqn:Hb; [|done].
  apply (inj Some) in Hes as <-.
  assert (b ∈ finest dist) as (o' & -> & _)%finest_elem_of.
  { apply elem_of_elements, list_elem_of_lookup. eauto. }
  rewrite elements_singleton in Hin.
  by apply list_elem_of_singleton in Hin as ->.
Qed.

(** X15. In the candidate that line 127 makes of the finest partition, the
    added variable tells the outcomes apart: two outcomes of the distribution
    have the same label only when they are the same outcome. *)
Theorem finest_labels_distinct dist o1 o2 :
  o1 ∈ outcomes dist → o2 ∈ outcomes dist →
  label (blocks_of (finest dist)) o1 = label (blocks_of (finest dist)) o2
  ↔ o1 = o2.
Proof.
  intros Ho1 Ho2. split; [|by intros ->]. intros Heq.
  destruct (blocks_of_covers _ _ (finest_covers dist) o1 Ho1) as [i1 Hi1].
  destruct (blocks_of_covers _ _ (finest_covers dist) o2 Ho2) as [i2 Hi2].
  apply label_greatest in Hi1 as [Hi1 _]. apply label_greatest in Hi2 as [Hi2 _].
  rewrite Heq in Hi1. apply finest_block_lookup in Hi1, Hi2.
  rewrite Hi1 in Hi2. apply (inj Some) in Hi2.
  assert (o1 ∈ ({[o2]} : block)) as Hin
    by (rewrite <-Hi2; by apply elem_of_singleton).
  by apply elem_of_singleton in Hin.
Qed.

(** X16. When [<=] on floats is total and transitive, the added variable of
    the distribution that [functional_markov_chain] returns has no more
    entropy than the one of the finest partition, the candidate of line
    128. *)
Theorem returned_not_above_initial dist rvs crvs rv_mode (k : nat) :
  total_preorder leb →
  ∃ d initial,
    functional_markov_chain (search_fuel dist + k) dist rvs crvs rv_mode
    = Return d
    ∧ add_partition dist (blocks_of (finest dist)) = Some initial
    ∧ leb (search_H dist rvs crvs rv_mode d)
          (search_H dist rvs crvs rv_mode initial) = true.
Proof.
  intros Horder.
  destruct (search_run dist rvs crvs rv_mode k)
    as (initial & e & s & Hinitial & Hsearch & _ & _ & _ & _ & Hopt & _).
  exists (optimal s).2, initial.
  unfold functional_markov_chain. rewrite Hsearch.
  split; [done|]. split; [done|].
  destruct (foldl_better_least dist (search_H dist rvs crvs rv_mode)
              (search_B dist rvs crvs rv_mode)
              (search_H dist rvs crvs rv_mode initial, initial) (popped s)
              Horder) as [Hfirst _].
  rewrite <-Hopt in Hfirst. simpl in Hfirst.
  destruct (foldl_better_from dist (search_H dist rvs crvs rv_mode)
              (search_B dist rvs crvs rv_mode)
              (search_H dist rvs crvs rv_mode initial, initial) (popped s))
    as [Heq|(p & d & _ & _ & _ & Heq)]; rewrite <-Hopt in Heq;
    rewrite Heq in Hfirst |- *; done.
Qed.
End initial_candidate.

Lemma finest_labels_distinct_witness :
  label (blocks_of (finest (prim := exact.primitives) exact.copy_bits)) [0; 0]
  = label (blocks_of (finest (prim := exact.primitives) exact.copy_bits)) [1; 1]
  ↔ [0; 0] = [1; 1].
Proof.
  apply (finest_labels_distinct (prim := exact.primitives) exact.copy_bits);
    simpl; set_solver.
Defined.

Lemma returned_not_above_initial_witness :
  ∃ d initial,
    functional_markov_chain (search_fuel exact.three_outcomes + 0)
      exact.three_outcomes None None None = Return d
    ∧ add_partition exact.three_outcomes
        (blocks_of (finest exact.three_outcomes)) = Some initial
    ∧ leb (exact_H exact.three_outcomes d)
          (exact_H exact.three_outcomes initial) = true.
Proof.
  apply (returned_not_above_initial (prim := exact.primitives)
           exact.three_outcomes None None None 0).
  apply exact_leb_total_preorder.
Defined.
